(** * Shallow embedding of the claykiller bulk-mutation core

    Embeds the batch loops of [RunAiColumnModal.handleRun],
    [VerifyEmailsModal.handleVerify], [AiColumnModal.runEnrichment] and
    [CsvUploadModal.handleImport]; the client cell cache of
    [workspace-context.tsx]; the undo/redo stacks of [DataGrid.tsx]; the
    fuzzy header matcher [findBestMatch]; the row pools of the enrichment and
    verification modals; the [delete_column] / [delete_rows] operations of
    the store proxy route; and the delete controls of the column settings
    modal. *)

From Stdlib Require Import String Ascii.
From Stdlib Require Import List Bool Arith ZArith Lia.
Import ListNotations.

(* ================================================================= *)
(** ** Batch executor *)

Module Batch.

Section Loops.
Context {A : Type}.
Variable batchSize : nat.

(** [items.slice(i, j)] *)
Definition slice (items : list A) (i j : nat) : list A :=
  firstn (j - i) (skipn i items).

(** The groups visited by
    [for (let i = 0; i < items.length; i += batchSize) items.slice(i, i + batchSize)].
    The fuel [length items] is enough when [batchSize > 0]. *)
Fixpoint groups_from (items : list A) (fuel i : nat) : list (list A) :=
  match fuel with
  | O => []
  | S f =>
      if i <? length items
      then slice items i (i + batchSize) :: groups_from items f (i + batchSize)
      else []
  end.

Definition groups (items : list A) : list (list A) :=
  groups_from items (length items) 0.

(** Body of the loop in [handleRun] / [handleVerify]: every item of the group
    runs; an item whose request fails (non-ok response or thrown error) is
    caught and bumps [errors]; after [Promise.all] the loop adds the group
    length to [done] and reports [Math.min(done, total)]. *)
Fixpoint run_groups (ok : A -> bool) (total : nat) (gs : list (list A))
    (done errors : nat) : list nat * nat * nat :=
  match gs with
  | [] => ([], done, errors)
  | g :: gs' =>
      let errors' := errors + length (filter (fun x => negb (ok x)) g) in
      let done' := done + length g in
      let '(rs, d, e) := run_groups ok total gs' done' errors' in
      (Nat.min done' total :: rs, d, e)
  end.

(** Loop of [CsvUploadModal.handleImport]: a group whose row insert fails
    stops the loop ([break]) before its progress is reported; otherwise the
    progress reported is [Math.min(i + batchSize, total)]. *)
Fixpoint csv_loop (insertOk : list A -> bool) (items : list A) (fuel i : nat)
    : list nat :=
  match fuel with
  | O => []
  | S f =>
      if i <? length items then
        let batch := slice items i (i + batchSize) in
        if insertOk batch
        then Nat.min (i + batchSize) (length items)
             :: csv_loop insertOk items f (i + batchSize)
        else []
      else []
  end.

End Loops.

(** The closing toast of a run. *)
Inductive summary :=
| Partial (succeeded failed : nat)   (* "Enriched X rows (Z failed)", info *)
| Full (n : nat).                    (* "Enriched N rows", success *)

Record run_result {A : Type} := {
  r_groups : list (list A);
  r_reports : list nat;
  r_errors : nat;
  r_summary : summary
}.
Arguments run_result : clear implicits.

(** [RunAiColumnModal.handleRun] (batch size 5); [handleVerify] has the same
    loop once its status column exists. [None]: the early return on an empty
    row set. *)
Definition handleRun {A} (ok : A -> bool) (rows : list A)
    : option (run_result A) :=
  match rows with
  | [] => None
  | _ =>
      let total := length rows in
      let gs := groups 5 rows in
      let '(rs, _, errors) := run_groups ok total gs 0 0 in
      Some {| r_groups := gs; r_reports := rs; r_errors := errors;
              r_summary := if 0 <? errors then Partial (total - errors) errors
                           else Full total |}
  end.

(** [VerifyEmailsModal.handleVerify]: when the status column is missing it is
    created first; a failed creation aborts before any batch. *)
Inductive verify_outcome {A : Type} :=
| SetupFailed
| NothingToDo
| Ran (r : run_result A).
Arguments verify_outcome : clear implicits.

Definition handleVerify {A} (statusColExists createOk : bool) (ok : A -> bool)
    (rows : list A) : verify_outcome A :=
  match rows with
  | [] => NothingToDo
  | _ =>
      if negb statusColExists && negb createOk then SetupFailed
      else
        let total := length rows in
        let gs := groups 5 rows in
        let '(rs, _, errors) := run_groups ok total gs 0 0 in
        Ran {| r_groups := gs; r_reports := rs; r_errors := errors;
               r_summary := if 0 <? errors then Partial (total - errors) errors
                            else Full total |}
  end.

(** [AiColumnModal.runEnrichment]: the catch returns [{ error: 'Failed' }]
    without touching any counter, and the toast is always
    ["Enriched ${total} rows"]. *)
Definition runEnrichment {A} (ok : A -> bool) (gridRows : list A)
    : run_result A :=
  let total := length gridRows in
  let gs := groups 5 gridRows in
  let '(rs, _, _) := run_groups ok total gs 0 0 in
  {| r_groups := gs; r_reports := rs; r_errors := 0; r_summary := Full total |}.

(** [handleImport] loop, batch size 50. *)
Definition csvImportProgress {A} (insertOk : list A -> bool) (csvData : list A)
    : list nat :=
  csv_loop 50 insertOk csvData (length csvData) 0.

End Batch.

(* ================================================================= *)
(** ** Client cell cache ([workspace-context.tsx]) *)

Module Cache.

Record CellValue := {
  cv_id : string;
  row_id : string;
  column_id : string;
  value : string;
  created_at : string
}.

Definition same_key (cv : CellValue) (rowId columnId : string) : bool :=
  String.eqb cv.(row_id) rowId && String.eqb cv.(column_id) columnId.

(** [Array.prototype.findIndex], with [-1] as [None]. *)
Fixpoint findIndex {A} (p : A -> bool) (l : list A) : option nat :=
  match l with
  | [] => None
  | x :: xs => if p x then Some 0
               else match findIndex p xs with
                    | Some i => Some (S i)
                    | None => None
                    end
  end.

(** [updated[idx] = x] on a copy, [idx] in range. *)
Fixpoint set_at {A} (l : list A) (idx : nat) (x : A) : list A :=
  match l, idx with
  | [], _ => []
  | _ :: ys, O => x :: ys
  | y :: ys, S k => y :: set_at ys k x
  end.

Definition with_value (cv : CellValue) (v : string) : CellValue :=
  {| cv_id := cv.(cv_id); row_id := cv.(row_id); column_id := cv.(column_id);
     value := v; created_at := cv.(created_at) |}.

(** The [setCellValues] updater of [upsertCellValue]: replace the value of
    the first entry at [(rowId, columnId)], or append a fresh entry. *)
Definition upsert_local (prev : list CellValue) (rowId columnId v : string)
    : list CellValue :=
  match findIndex (fun cv => same_key cv rowId columnId) prev with
  | Some idx => set_at prev idx (with_value (nth idx prev
                   {| cv_id := EmptyString; row_id := EmptyString; column_id := EmptyString; value := EmptyString;
                      created_at := EmptyString |}) v)
  | None => prev ++ [{| cv_id := EmptyString; row_id := rowId; column_id := columnId;
                        value := v; created_at := EmptyString |}]
  end.

(** [upsertCellValue]: the store upsert runs first; when it fails the error
    propagates and the local cache is not touched ([None]). *)
Definition upsertCellValue (storeOk : bool) (cache : list CellValue)
    (rowId columnId v : string) : option (list CellValue) :=
  if storeOk then Some (upsert_local cache rowId columnId v) else None.

(** The value the projected grid row shows at [(rowId, columnId)]: the
    [forEach] over the row's cells assigns [rowObj[cv.column_id]] in order, so
    the last matching entry wins. *)
Definition grid_value (cache : list CellValue) (rowId columnId : string)
    : option string :=
  fold_left (fun acc cv => if same_key cv rowId columnId then Some cv.(value) else acc)
    cache None.

Definition count_key (cache : list CellValue) (rowId columnId : string) : nat :=
  length (filter (fun cv => same_key cv rowId columnId) cache).

(** At most one entry per [(row, column)] pair. *)
Definition unique_keys (cache : list CellValue) : Prop :=
  forall r c, count_key cache r c <= 1.

End Cache.

(* ================================================================= *)
(** ** Undo / redo stacks ([DataGrid.tsx]) *)

Module Ledger.
Import Cache.

Record UndoEntry := {
  e_rowId : string;
  e_columnId : string;
  oldValue : string;
  newValue : string
}.

(** The JS arrays [undoStackRef.current] / [redoStackRef.current]; the head
    of each list is the array's last element, so [push] is [cons] and [pop]
    takes the head. *)
Record grid_state := {
  cellValues : list CellValue;
  undoStack : list UndoEntry;
  redoStack : list UndoEntry
}.

Inductive toast :=
| NothingToUndo | Undone | UndoFailed
| NothingToRedo | Redone | RedoFailed
| Updated | SaveFailed.

(** [performUndo]; [storeOk] is the outcome of the store upsert. *)
Definition performUndo (storeOk : bool) (st : grid_state) : grid_state * toast :=
  match st.(undoStack) with
  | [] => (st, NothingToUndo)
  | entry :: rest =>
      match upsertCellValue storeOk st.(cellValues) entry.(e_rowId)
              entry.(e_columnId) entry.(oldValue) with
      | Some cv' => ({| cellValues := cv'; undoStack := rest;
                        redoStack := entry :: st.(redoStack) |}, Undone)
      | None => ({| cellValues := st.(cellValues); undoStack := entry :: rest;
                    redoStack := st.(redoStack) |}, UndoFailed)
      end
  end.

(** [performRedo] *)
Definition performRedo (storeOk : bool) (st : grid_state) : grid_state * toast :=
  match st.(redoStack) with
  | [] => (st, NothingToRedo)
  | entry :: rest =>
      match upsertCellValue storeOk st.(cellValues) entry.(e_rowId)
              entry.(e_columnId) entry.(newValue) with
      | Some cv' => ({| cellValues := cv'; undoStack := entry :: st.(undoStack);
                        redoStack := rest |}, Redone)
      | None => ({| cellValues := st.(cellValues); undoStack := st.(undoStack);
                    redoStack := entry :: rest |}, RedoFailed)
      end
  end.

(** The fields of a [CellEditRequestEvent] the handler reads; [None] is a
    null or undefined value. *)
Record edit_event := {
  ev_rowId : string;
  ev_field : string;
  ev_oldValue : option string;
  ev_newValue : option string
}.

(** [String(x ?? '')] *)
Definition js_string (x : option string) : string :=
  match x with Some s => s | None => EmptyString end.

Inductive effect :=
| AskConfirm (oldV newV : string)
| StoreUpsert (rowId columnId v : string)
| ShowToast (t : toast).

(** [handleCellEditRequest]: [confirmed] is the answer to [window.confirm],
    [storeOk] the outcome of the store upsert. *)
Definition handleCellEditRequest (confirmed storeOk : bool) (st : grid_state)
    (ev : edit_event) : grid_state * list effect :=
  let rowId := ev.(ev_rowId) in
  let columnId := ev.(ev_field) in
  let oldV := js_string ev.(ev_oldValue) in
  let newV := js_string ev.(ev_newValue) in
  if String.eqb oldV newV then (st, [])
  else if negb confirmed then (st, [AskConfirm oldV newV])
  else
    match upsertCellValue storeOk st.(cellValues) rowId columnId newV with
    | Some cv' =>
        ({| cellValues := cv';
            undoStack := {| e_rowId := rowId; e_columnId := columnId;
                            oldValue := oldV; newValue := newV |} :: st.(undoStack);
            redoStack := [] |},
         [AskConfirm oldV newV; StoreUpsert rowId columnId newV; ShowToast Updated])
    | None =>
        (st, [AskConfirm oldV newV; StoreUpsert rowId columnId newV;
              ShowToast SaveFailed])
    end.

End Ledger.

(* ================================================================= *)
(** ** Shared types ([lib/types.ts]) *)

Module Types.

Inductive TableType := people | companies.

(** The fields of a [ColumnDefinition] the core reads. *)
Record ColumnDefinition := {
  id : string;
  name : string;
  field_key : string;
  is_ai_column : bool
}.

(** The [field_key]s of [DEFAULT_COLUMNS]. *)
Definition default_field_keys (t : TableType) : list string :=
  match t with
  | people => ["first_name"; "last_name"; "email"; "email_status";
               "linkedin_url"; "company_name"; "title"; "company_website"]
  | companies => ["company_name"; "website"; "location"; "headcount";
                  "description"; "phone"; "linkedin_url"]
  end%string.

(** [isProtectedColumn] *)
Definition isProtectedColumn (fieldKey : string) (tableType : TableType) : bool :=
  existsb (fun k => String.eqb k fieldKey) (default_field_keys tableType).

End Types.

(* ================================================================= *)
(** ** Fuzzy column mapper ([findBestMatch], Apollo auto-mapping) *)

Module Mapper.
Import Types.

(** [String.prototype.toLowerCase] on ASCII text. *)
Definition lower_ascii (ch : ascii) : ascii :=
  let n := nat_of_ascii ch in
  if (65 <=? n) && (n <=? 90) then ascii_of_nat (n + 32) else ch.

Fixpoint toLowerCase (s : string) : string :=
  match s with
  | EmptyString => EmptyString
  | String ch s' => String (lower_ascii ch) (toLowerCase s')
  end.

Definition is_lower_alnum (ch : ascii) : bool :=
  let n := nat_of_ascii ch in
  ((97 <=? n) && (n <=? 122)) || ((48 <=? n) && (n <=? 57)).

(** [.replace(/[^a-z0-9]/g, '')] *)
Fixpoint strip_non_alnum (s : string) : string :=
  match s with
  | EmptyString => EmptyString
  | String ch s' =>
      if is_lower_alnum ch then String ch (strip_non_alnum s') else strip_non_alnum s'
  end.

Definition normalize (s : string) : string := strip_non_alnum (toLowerCase s).

(** [s.includes(t)] *)
Fixpoint includes (s t : string) : bool :=
  String.prefix t s ||
  match s with
  | EmptyString => false
  | String _ s' => includes s' t
  end.

Inductive MappingValue :=
| Target (columnId : string)
| Create   (* '__create__' *)
| Skip.    (* '__skip__' *)

(** [findBestMatch] of [CsvUploadModal]. *)
Definition findBestMatch (columns : list ColumnDefinition) (csvHeader : string)
    : MappingValue :=
  let normalized := normalize csvHeader in
  let fix go (cols : list ColumnDefinition) :=
    match cols with
    | [] => Create
    | col :: rest =>
        let colNorm := normalize col.(name) in
        if String.eqb colNorm normalized then Target col.(id)
        else if includes colNorm normalized || includes normalized colNorm
        then Target col.(id)
        else go rest
    end in
  go columns.

(** The auto-mapping loop of [handleListConfirm] (Apollo import). *)
Definition apolloAutoTarget (columns : list ColumnDefinition) (label : string)
    : MappingValue :=
  let normalized := normalize label in
  let fix go (cols : list ColumnDefinition) :=
    match cols with
    | [] => Create
    | col :: rest =>
        let colNorm := normalize col.(name) in
        if String.eqb colNorm normalized || includes colNorm normalized
           || includes normalized colNorm
        then Target col.(id) else go rest
    end in
  go columns.

End Mapper.

(* ================================================================= *)
(** ** Candidate rows of enrichment and verification *)

Module Pools.
Import Types.

(** A projected grid row: its id and its cells by column id. *)
Record GridRow := {
  _rowId : string;
  cell : string -> option string
}.

(** [val === undefined || val === null || val === ''] *)
Definition js_blank (v : option string) : bool :=
  match v with None => true | Some s => String.eqb s EmptyString end.

(** [RunAiColumnModal.getRowsToRun] *)
Definition getRowsToRun (column : option ColumnDefinition) (gridRows : list GridRow)
    (rowCount : nat) (skipExisting : bool) : list GridRow :=
  match column with
  | None => []
  | Some col =>
      let subset := firstn rowCount gridRows in
      if skipExisting then filter (fun row => js_blank (row.(cell) col.(id))) subset
      else subset
  end.

(** JS white space and line terminators, ASCII part. *)
Definition is_js_space (ch : ascii) : bool :=
  let n := nat_of_ascii ch in ((9 <=? n) && (n <=? 13)) || (n =? 32).

Fixpoint drop_spaces (l : list ascii) : list ascii :=
  match l with
  | [] => []
  | ch :: l' => if is_js_space ch then drop_spaces l' else l
  end.

(** [String.prototype.trim] *)
Definition trim (s : string) : string :=
  string_of_list_ascii
    (rev (drop_spaces (rev (drop_spaces (list_ascii_of_string s))))).

(** [email && email.trim() !== ''] *)
Definition has_email (v : option string) : bool :=
  match v with
  | None => false
  | Some e => negb (String.eqb e EmptyString) && negb (String.eqb (trim e) EmptyString)
  end.

Inductive RunMode := selected | top_n.

Definition find_field (columns : list ColumnDefinition) (key : string)
    : option ColumnDefinition :=
  find (fun c => String.eqb c.(field_key) key) columns.

(** The pool before the email and status filters. *)
Definition verify_pool (gridRows : list GridRow) (runMode : RunMode)
    (selectedRowIds : list string) (rowCount : nat) : list GridRow :=
  match runMode with
  | selected => filter (fun row => existsb (String.eqb row.(_rowId)) selectedRowIds) gridRows
  | top_n => firstn rowCount gridRows
  end.

(** [VerifyEmailsModal.getRowsToVerify] *)
Definition getRowsToVerify (columns : list ColumnDefinition) (gridRows : list GridRow)
    (runMode : RunMode) (selectedRowIds : list string) (rowCount : nat)
    (skipVerified : bool) : list GridRow :=
  match find_field columns "email"%string with
  | None => []
  | Some emailCol =>
      let pool := verify_pool gridRows runMode selectedRowIds rowCount in
      let pool := filter (fun row => has_email (row.(cell) emailCol.(id))) pool in
      match skipVerified, find_field columns "email_status"%string with
      | true, Some statusCol =>
          filter (fun row => js_blank (row.(cell) statusCol.(id))) pool
      | _, _ => pool
      end
  end.

End Pools.

(* ================================================================= *)
(** ** Store proxy route: [delete_column] and [delete_rows] *)

Module Route.
Import Cache Types.

Record Store := {
  cell_values : list CellValue;
  column_definitions : list ColumnDefinition;
  rows : list string
}.

(** The store calls the two operations issue. *)
Inductive call :=
| DeleteCellsOfColumn (columnId : string)   (* cell_values .eq('column_id', ...) *)
| DeleteColumn (columnId : string)          (* column_definitions .eq('id', ...) *)
| DeleteCellsOfRows (rowIds : list string)  (* cell_values .in('row_id', batch) *)
| DeleteRows (rowIds : list string).        (* rows .in('id', batch) *)

(** Action of the foreign keys from [cell_values] to [rows] and to
    [column_definitions]. *)
Inductive fk_action := fk_cascade | fk_restrict.

Definition mem (x : string) (xs : list string) : bool := existsb (String.eqb x) xs.

(** Modelled from the spec: the persistence store, whose schema is not part
    of the sources. A cell value references its row and its column (the
    cell query of the earlier proxy filters cells through the
    [cell_values -> rows] foreign key), and deleting a row or a column
    cascades to its cell values ([fk_cascade], as the spec's data model
    says) or is refused while cell values still reference it
    ([fk_restrict]). *)
Definition apply_call (fk : fk_action) (c : call) (s : Store) : option Store :=
  let keep_cells p :=
    filter (fun cv => negb (p cv)) s.(cell_values) in
  match c with
  | DeleteCellsOfColumn cid =>
      Some {| cell_values := keep_cells (fun cv => String.eqb cv.(column_id) cid);
              column_definitions := s.(column_definitions); rows := s.(rows) |}
  | DeleteColumn cid =>
      let cols' := filter (fun col => negb (String.eqb col.(id) cid))
                     s.(column_definitions) in
      match fk with
      | fk_cascade =>
          Some {| cell_values := keep_cells (fun cv => String.eqb cv.(column_id) cid);
                  column_definitions := cols'; rows := s.(rows) |}
      | fk_restrict =>
          if existsb (fun cv => String.eqb cv.(column_id) cid) s.(cell_values)
          then None
          else Some {| cell_values := s.(cell_values); column_definitions := cols';
                       rows := s.(rows) |}
      end
  | DeleteCellsOfRows ids =>
      Some {| cell_values := keep_cells (fun cv => mem cv.(row_id) ids);
              column_definitions := s.(column_definitions); rows := s.(rows) |}
  | DeleteRows ids =>
      let rows' := filter (fun r => negb (mem r ids)) s.(rows) in
      match fk with
      | fk_cascade =>
          Some {| cell_values := keep_cells (fun cv => mem cv.(row_id) ids);
                  column_definitions := s.(column_definitions); rows := rows' |}
      | fk_restrict =>
          if existsb (fun cv => mem cv.(row_id) ids) s.(cell_values)
          then None
          else Some {| cell_values := s.(cell_values);
                       column_definitions := s.(column_definitions); rows := rows' |}
      end
  end.

(** The store, the outcomes of the next calls ([false]: the call returns an
    error, e.g. a network or database failure) and the calls issued so far. *)
Record World := {
  store : Store;
  outcomes : list bool;
  log : list call
}.

(** One awaited store call; [true] when it returns no [error]. *)
Definition exec (fk : fk_action) (c : call) (w : World) : bool * World :=
  let '(up, rest) := match w.(outcomes) with
                     | [] => (true, [])
                     | b :: bs => (b, bs)
                     end in
  let failed := {| store := w.(store); outcomes := rest; log := w.(log) ++ [c] |} in
  if up then
    match apply_call fk c w.(store) with
    | Some s' => (true, {| store := s'; outcomes := rest; log := w.(log) ++ [c] |})
    | None => (false, failed)
    end
  else (false, failed).

Inductive response := deleted | bad_request.

(** [case 'delete_column'] *)
Definition delete_column (fk : fk_action) (columnId : string) (w : World)
    : response * World :=
  let '(ok1, w1) := exec fk (DeleteCellsOfColumn columnId) w in
  if negb ok1 then (bad_request, w1)
  else
    let '(ok2, w2) := exec fk (DeleteColumn columnId) w1 in
    if negb ok2 then (bad_request, w2) else (deleted, w2).

(** First loop of [case 'delete_rows']: the result of each cell delete is
    not inspected. *)
Fixpoint delete_cells_batches (fk : fk_action) (bs : list (list string)) (w : World)
    : World :=
  match bs with
  | [] => w
  | b :: bs' => delete_cells_batches fk bs' (snd (exec fk (DeleteCellsOfRows b) w))
  end.

(** Second loop: the first failing row delete answers 400. *)
Fixpoint delete_rows_batches (fk : fk_action) (bs : list (list string)) (w : World)
    : response * World :=
  match bs with
  | [] => (deleted, w)
  | b :: bs' =>
      let '(ok, w') := exec fk (DeleteRows b) w in
      if ok then delete_rows_batches fk bs' w' else (bad_request, w')
  end.

(** [case 'delete_rows'], batches of 50 ids. *)
Definition delete_rows (fk : fk_action) (rowIds : list string) (w : World)
    : response * World :=
  let bs := Batch.groups 50 rowIds in
  delete_rows_batches fk bs (delete_cells_batches fk bs w).

End Route.

(* ================================================================= *)
(** ** Column settings modal ([ColumnSettingsModal]) *)

Module Settings.
Import Types.

Record modal_state := {
  showDeleteConfirm : bool;
  confirmText : string;
  deleting : bool
}.

Inductive ui_event :=
| ClickDeleteColumn            (* "Delete Column" in the danger zone *)
| TypeConfirm (text : string)  (* the type-to-confirm input *)
| ClickCancel
| ClickConfirmDelete           (* the red confirm button, runs [handleDelete] *)
| ClickClose.

Inductive ui_effect :=
| CallDeleteColumn (columnId : string)
| Closed.

(** [isProtected] as the modal computes it. *)
Definition isProtected (column : ColumnDefinition) (activeTableType : option TableType)
    : bool :=
  match activeTableType with
  | Some t => isProtectedColumn column.(field_key) t
  | None => false
  end.

Definition canDelete (column : ColumnDefinition) (st : modal_state) : bool :=
  String.eqb st.(confirmText) column.(name).

(** The controls the modal renders: for a protected column the danger zone
    only shows the "cannot be deleted" notice; the confirm button is
    [disabled={!canDelete || deleting}]. *)
Definition enabled (prot : bool) (column : ColumnDefinition) (st : modal_state)
    (e : ui_event) : bool :=
  match e with
  | ClickClose => true
  | ClickDeleteColumn => negb prot && negb st.(showDeleteConfirm)
  | TypeConfirm _ | ClickCancel =>
      negb prot && st.(showDeleteConfirm) && negb st.(deleting)
  | ClickConfirmDelete =>
      negb prot && st.(showDeleteConfirm) && canDelete column st && negb st.(deleting)
  end.

Definition step (column : ColumnDefinition) (st : modal_state) (e : ui_event)
    : modal_state * list ui_effect :=
  match e with
  | ClickDeleteColumn =>
      ({| showDeleteConfirm := true; confirmText := st.(confirmText);
          deleting := st.(deleting) |}, [])
  | TypeConfirm s =>
      ({| showDeleteConfirm := st.(showDeleteConfirm); confirmText := s;
          deleting := st.(deleting) |}, [])
  | ClickCancel =>
      ({| showDeleteConfirm := false; confirmText := EmptyString;
          deleting := st.(deleting) |}, [])
  | ClickConfirmDelete =>
      (* handleDelete *)
      if canDelete column st
      then ({| showDeleteConfirm := st.(showDeleteConfirm);
               confirmText := st.(confirmText); deleting := true |},
            [CallDeleteColumn column.(id)])
      else (st, [])
  | ClickClose => (st, [Closed])
  end.

(** A user session with the modal: events on controls that are not
    rendered or are disabled have no effect. *)
Fixpoint session (prot : bool) (column : ColumnDefinition) (st : modal_state)
    (events : list ui_event) : list ui_effect :=
  match events with
  | [] => []
  | e :: es =>
      if enabled prot column st e
      then let '(st', eff) := step column st e in eff ++ session prot column st' es
      else session prot column st es
  end.

End Settings.

(* ================================================================= *)
(** ** Store proxy route: paginated reads and batched deletes *)

Module Proxy.
Import Cache.

Definition PAGE_SIZE : nat := 1000.

(** Outcome of the next store query ([false]: it returns an [error]) and
    the outcomes of the queries after it; queries succeed by default. *)
Definition next_outcome (up : list bool) : bool * list bool :=
  match up with
  | [] => (true, [])
  | b :: bs => (b, bs)
  end.

Section Paginated.
Context {R : Type}.

(** [.range(from, to)]: both ends inclusive. *)
Definition range (view : list R) (from to : nat) : list R :=
  firstn (S to - from) (skipn from view).

(** What a [paginatedSelect] call answers: the rows it collected, whether
    it ends on an error, the outcomes left for later queries and the number
    of page queries it issued. *)
Record selected := {
  data : list R;
  error : bool;
  rest : list bool;
  queries : nat
}.

(** The [while (true)] loop of [paginatedSelect]. [view] is the answer of
    the store to the query without its range: the matching rows, in the
    order the store returns them; every page query is answered from it. *)
Fixpoint paginated_loop (fuel : nat) (view : list R) (up : list bool)
    (from : nat) (allRows : list R) : selected :=
  match fuel with
  | O => {| data := allRows; error := false; rest := up; queries := 0 |}
  | S f =>
      let '(ok, up') := next_outcome up in
      if negb ok
      then {| data := allRows; error := true; rest := up'; queries := 1 |}
      else
        let page := range view from (from + PAGE_SIZE - 1) in
        if length page =? 0
        then {| data := allRows; error := false; rest := up'; queries := 1 |}
        else
          let allRows' := allRows ++ page in
          if length page <? PAGE_SIZE
          then {| data := allRows'; error := false; rest := up'; queries := 1 |}
          else
            let r := paginated_loop f view up' (from + PAGE_SIZE) allRows' in
            {| data := data r; error := error r; rest := rest r;
               queries := S (queries r) |}
  end.

(** [paginatedSelect]; the loop runs at most [length view / PAGE_SIZE + 1]
    times, which is the fuel. *)
Definition paginatedSelect (view : list R) (up : list bool) : selected :=
  paginated_loop (S (length view / PAGE_SIZE)) view up 0 [].

(** [query.in(column, values)] on a column read by [col]. *)
Definition in_filter (col : R -> string) (values : list string) (r : R) : bool :=
  Route.mem (col r) values.



(** Response of [case 'delete_in']. *)
Inductive delete_response :=
| Deleted (deleted : nat)
| DeleteFailed.

(** Loop of [case 'delete_in']: every batch is a [.delete().in(column,
    batch)] on the current table; the first error answers 400 and the
    batches deleted before it stay deleted. *)
Fixpoint delete_in_loop (col : R -> string) (bs : list (list string))
    (table : list R) (up : list bool) : bool * list R :=
  match bs with
  | [] => (true, table)
  | b :: bs' =>
      let '(ok, up') := next_outcome up in
      if ok
      then delete_in_loop col bs' (filter (fun r => negb (in_filter col b r)) table) up'
      else (false, table)
  end.

(** [case 'delete_in']: the table after the call and the response, which
    reports [op.values.length]. *)
Definition delete_in (col : R -> string) (table : list R) (values : list string)
    (up : list bool) : delete_response * list R :=
  let '(ok, table') := delete_in_loop col (Batch.groups 50 values) table up in
  (if ok then Deleted (length values) else DeleteFailed, table').

End Paginated.

Arguments selected : clear implicits.




End Proxy.

(* ================================================================= *)
(** ** Field keys and new columns ([toFieldKey], [addColumn]) *)

Module FieldKey.
Import Mapper.

Definition underscore : ascii := "_"%char.

(** [.replace(/[^a-z0-9]+/g, '_')]: every maximal run of characters other
    than [a-z0-9] becomes one underscore; [inRun] tells whether the
    character before belongs to such a run. *)
Fixpoint replace_runs (inRun : bool) (s : string) : string :=
  match s with
  | EmptyString => EmptyString
  | String ch s' =>
      if is_lower_alnum ch then String ch (replace_runs false s')
      else if inRun then replace_runs true s'
      else String underscore (replace_runs true s')
  end.

(** [_$]: the underscore at the very end, if any. *)
Fixpoint drop_final_underscore (s : string) : string :=
  match s with
  | EmptyString => EmptyString
  | String ch EmptyString =>
      if Ascii.eqb ch underscore then EmptyString else String ch EmptyString
  | String ch s' => String ch (drop_final_underscore s')
  end.

(** [.replace(/^_|_$/g, '')]: the underscore at the start and the one at
    the end; in the one-character string "_" both alternatives name the
    same character, which is removed once. *)
Definition strip_edges (s : string) : string :=
  match s with
  | String ch s' => if Ascii.eqb ch underscore then drop_final_underscore s'
                    else drop_final_underscore s
  | EmptyString => EmptyString
  end.

(** [toFieldKey] of [types.ts], on ASCII text. *)
Definition toFieldKey (name : string) : string :=
  strip_edges (replace_runs false (toLowerCase name)).

(** The insert [addColumn] / [addAiColumn] send for a new column. *)
Record ColumnInsert := {
  workspace_id : string;
  name : string;
  field_key : string;
  position : Z;
  width : Z;
  is_ai_column : bool;
  ai_prompt : option string
}.

(** [columns.reduce((max, c) => Math.max(max, c.position), -1)] *)
Definition maxPos (positions : list Z) : Z := fold_left Z.max positions (-1)%Z.

(** [addColumn] ([ai = None]) and [addAiColumn] ([ai = Some prompt]):
    without an active workspace ([!activeWorkspaceId]: [null] or the
    empty string) nothing is inserted and the result is [null]. *)
Definition addColumn_insert (activeWorkspaceId : option string) (positions : list Z)
    (name : string) (ai : option string) : option ColumnInsert :=
  match activeWorkspaceId with
  | None => None
  | Some wid =>
      if String.eqb wid EmptyString then None
      else
        Some {| workspace_id := wid; name := name; field_key := toFieldKey name;
                position := (maxPos positions + 1)%Z; width := 200%Z;
                is_ai_column := match ai with Some _ => true | None => false end;
                ai_prompt := ai |}
  end.

End FieldKey.

(* ================================================================= *)
(** ** Active workspace selection ([WorkspaceProvider]) *)

Module WorkspaceSel.

Record Workspace := {
  id : string;
  table_type : Types.TableType
}.

Definition table_type_eqb (a b : Types.TableType) : bool :=
  match a, b with
  | Types.people, Types.people | Types.companies, Types.companies => true
  | _, _ => false
  end.

(** [w.id === activeWorkspaceId] *)
Definition is_active (activeWorkspaceId : option string) (w : Workspace) : bool :=
  match activeWorkspaceId with
  | Some a => String.eqb (id w) a
  | None => false
  end.

(** [activeWorkspace = workspaces.find((w) => w.id === activeWorkspaceId) ?? null] *)
Definition activeWorkspace (workspaces : list Workspace) (activeWorkspaceId : option string)
    : option Workspace :=
  find (is_active activeWorkspaceId) workspaces.

(** The effect "auto-select first workspace of active tab": the value of
    [activeWorkspaceId] after it runs. *)
Definition autoSelect (workspaces : list Workspace) (activeTab : Types.TableType)
    (activeWorkspaceId : option string) : option string :=
  let tabWorkspaces := filter (fun w => table_type_eqb (table_type w) activeTab) workspaces in
  let afterFirst :=
    match tabWorkspaces with
    | w0 :: _ =>
        match find (is_active activeWorkspaceId) tabWorkspaces with
        | None => Some (id w0)
        | Some _ => activeWorkspaceId
        end
    | [] => activeWorkspaceId
    end in
  if length tabWorkspaces =? 0 then None else afterFirst.

End WorkspaceSel.

(* ================================================================= *)
(** ** CSV import ([CsvUploadModal.handleImport], [bulkInsertRows]) *)

Module Import_.
Import Mapper.

(** A parsed CSV row: header and cell, one entry per header. *)
Definition CsvRow := list (string * string).

(** [csvRow[csvHeader]], [None] for [undefined]. *)
Definition lookup (csvRow : CsvRow) (h : string) : option string :=
  option_map snd (find (fun p => String.eqb (fst p) h) csvRow).



Record CellInsert := {
  row_id : string;
  column_id : string;
  value : string
}.

(** The inner [Object.entries(columnMap).forEach] for one new row. *)
Definition cell_inserts_for (rowId : string) (csvRow : CsvRow)
    (columnMap : list (string * string)) : list CellInsert :=
  flat_map (fun '(h, c) =>
              match lookup csvRow h with
              | Some val => if String.eqb val EmptyString then []
                            else [{| row_id := rowId; column_id := c; value := val |}]
              | None => []
              end) columnMap.

(** [newRows.forEach((row, idx) => ...)] over the ids of the inserted rows;
    [None] when [batch[idx]] is [undefined] and a header is read from it,
    which throws. *)
Fixpoint build_cell_inserts (newRows : list string) (batch : list CsvRow)
    (columnMap : list (string * string)) : option (list CellInsert) :=
  match newRows with
  | [] => Some []
  | r :: rs =>
      match batch with
      | csvRow :: bs =>
          option_map (app (cell_inserts_for r csvRow columnMap))
            (build_cell_inserts rs bs columnMap)
      | [] =>
          match columnMap with
          | [] => build_cell_inserts rs [] columnMap
          | _ => None
          end
      end
  end.




End Import_.

(* ================================================================= *)
(** * Proofs *)

From Stdlib Require Import Sorted.

(* ----------------------------------------------------------------- *)
(** ** Batch executor *)

Module BatchFacts.
Import Batch.

Section Groups.
Context {A : Type}.

Lemma groups_from_concat (B : nat) (items : list A) fuel i :
  0 < B -> length items <= i + fuel * B ->
  concat (groups_from B items fuel i) = skipn i items.
Proof.
  intros HB. revert i. induction fuel as [|f IH]; intros i Hle; simpl.
  - rewrite skipn_all2 by lia. reflexivity.
  - destruct (Nat.ltb_spec i (length items)) as [Hlt|Hge].
    + simpl. rewrite IH by lia. unfold slice.
      replace (i + B - i) with B by lia.
      rewrite <- (firstn_skipn B (skipn i items)) at 2.
      rewrite skipn_skipn, Nat.add_comm. reflexivity.
    + rewrite skipn_all2 by lia. reflexivity.
Qed.

Lemma groups_concat (B : nat) (items : list A) :
  0 < B -> concat (groups B items) = items.
Proof.
  intros HB. unfold groups.
  assert (Hle : length items <= 0 + length items * B).
  { destruct B as [|B']; [lia|]. rewrite Nat.mul_succ_r. lia. }
  rewrite groups_from_concat by assumption. reflexivity.
Qed.

Lemma groups_from_sizes (B : nat) (items : list A) fuel i :
  0 < B ->
  Forall (fun g => 0 < length g <= B) (groups_from B items fuel i).
Proof.
  intros HB. revert i. induction fuel as [|f IH]; intros i; simpl; [constructor|].
  destruct (Nat.ltb_spec i (length items)); [|constructor].
  constructor; [|apply IH].
  unfold slice. rewrite length_firstn, length_skipn. lia.
Qed.

(** The progress reports of a run follow [done = min(done + group.length, N)],
    starting from [done = 0]. *)
Inductive steps (N : nat) : nat -> list (list A) -> list nat -> Prop :=
| steps_nil prev : steps N prev [] []
| steps_cons prev g gs r rs :
    r = Nat.min (prev + length g) N -> steps N r gs rs ->
    steps N prev (g :: gs) (r :: rs).

Definition progress_props (N : nat) (gs : list (list A)) (rs : list nat) : Prop :=
  steps N 0 gs rs /\ Sorted le rs /\ Forall (fun d => d <= N) rs /\
  last rs 0 = N.

Lemma run_groups_steps ok N gs done errors :
  done + length (concat gs) = N ->
  steps N done gs (fst (fst (run_groups ok N gs done errors))).
Proof.
  revert done errors. induction gs as [|g gs IH]; intros done errors Hsum; simpl.
  - constructor.
  - simpl in Hsum. rewrite length_app in Hsum.
    specialize (IH (done + length g)
                   (errors + length (filter (fun x => negb (ok x)) g))).
    destruct (run_groups ok N gs (done + length g) _) as [[rs d] e] eqn:E.
    simpl in *. constructor.
    + lia.
    + replace (Nat.min (done + length g) N) with (done + length g) by lia.
      apply IH. lia.
Qed.

Lemma steps_sorted N prev gs rs :
  prev <= N -> steps N prev gs rs -> Sorted le (prev :: rs).
Proof.
  intros Hp Hs. induction Hs as [prev|prev g gs r rs Hr Hs IH].
  - repeat constructor.
  - constructor.
    + apply IH. lia.
    + constructor. lia.
Qed.

Lemma steps_bounded N prev gs rs :
  steps N prev gs rs -> Forall (fun d => d <= N) rs.
Proof.
  induction 1; constructor; [lia | assumption].
Qed.

Lemma last_default_irrel (rs : list nat) d d' :
  rs <> [] -> last rs d = last rs d'.
Proof.
  induction rs as [|x [|y rs] IH]; intros Hne; [congruence|reflexivity|].
  simpl in *. apply IH. discriminate.
Qed.

Lemma steps_last N prev gs rs :
  prev + length (concat gs) = N -> steps N prev gs rs -> last rs prev = N.
Proof.
  intros Hsum Hs. revert Hsum.
  induction Hs as [prev|prev g gs r rs Hr Hs IH]; intros Hsum; simpl in *.
  - lia.
  - rewrite length_app in Hsum.
    assert (Er : r = prev + length g) by lia.
    destruct rs as [|r' rs'].
    + assert (Eg : gs = []) by (inversion Hs; reflexivity).
      rewrite Eg in Hsum. simpl in Hsum. lia.
    + rewrite (last_default_irrel _ prev r) by discriminate.
      apply IH. lia.
Qed.

Lemma run_groups_progress ok B (items : list A) errors :
  0 < B ->
  progress_props (length items) (groups B items)
    (fst (fst (run_groups ok (length items) (groups B items) 0 errors))).
Proof.
  intros HB.
  assert (Hc := groups_concat B items HB).
  assert (Hs : steps (length items) 0 (groups B items)
                 (fst (fst (run_groups ok (length items) (groups B items) 0 errors)))).
  { apply run_groups_steps. rewrite Hc. reflexivity. }
  repeat split.
  - exact Hs.
  - apply steps_sorted in Hs; [|lia]. inversion Hs; assumption.
  - eapply steps_bounded; eauto.
  - assert (Hsum : 0 + length (concat (groups B items)) = length items)
      by (rewrite Hc; reflexivity).
    exact (steps_last _ _ _ _ Hsum Hs).
Qed.

Lemma csv_loop_prefix B insertOk (items : list A) fuel i :
  exists sfx, csv_loop B insertOk items fuel i ++ sfx
              = csv_loop B (fun _ => true) items fuel i.
Proof.
  revert i. induction fuel as [|f IH]; intros i; simpl.
  - exists []. reflexivity.
  - destruct (i <? length items).
    + destruct (insertOk (slice items i (i + B))).
      * destruct (IH (i + B)) as [sfx Hs]. exists sfx. simpl. rewrite Hs.
        reflexivity.
      * eexists. reflexivity.
    + exists []. reflexivity.
Qed.

Lemma csv_loop_past B insertOk (items : list A) fuel i :
  length items <= i -> csv_loop B insertOk items fuel i = [].
Proof.
  intros H. destruct fuel; simpl; [reflexivity|].
  destruct (Nat.ltb_spec i (length items)); [lia|reflexivity].
Qed.

Lemma groups_from_past B (items : list A) fuel i :
  length items <= i -> groups_from B items fuel i = [].
Proof.
  intros H. destruct fuel; simpl; [reflexivity|].
  destruct (Nat.ltb_spec i (length items)); [lia|reflexivity].
Qed.

(** With every row insert succeeding, the import reports exactly what the
    [done]-counting loop reports over the same groups. *)
Lemma csv_loop_all_ok B ok (items : list A) fuel i errors :
  csv_loop B (fun _ => true) items fuel i
  = fst (fst (run_groups ok (length items) (groups_from B items fuel i) i errors)).
Proof.
  revert i errors. induction fuel as [|f IH]; intros i errors; simpl;
    [reflexivity|].
  destruct (Nat.ltb_spec i (length items)) as [Hlt|Hge]; [|reflexivity].
  simpl.
  set (e' := errors + _).
  destruct (run_groups ok (length items) (groups_from B items f (i + B))
              (i + length (slice items i (i + B))) e') as [[rs d] e] eqn:E.
  simpl. unfold slice in *. rewrite length_firstn, length_skipn in *.
  replace (i + B - i) with B in * by lia.
  f_equal; [lia|].
  destruct (Nat.ltb_spec (i + B) (length items)) as [Hlt'|Hge'].
  - replace (i + Nat.min B (length items - i)) with (i + B) in E by lia.
    rewrite (IH (i + B) e'), E. reflexivity.
  - rewrite csv_loop_past by lia. rewrite groups_from_past in E by lia.
    simpl in E. injection E as <- _ _. reflexivity.
Qed.

End Groups.
End BatchFacts.

Module BatchClaims.
Import Batch BatchFacts.

Lemma handleRun_shape {A} (ok : A -> bool) rows r :
  handleRun ok rows = Some r ->
  r_groups r = groups 5 rows /\
  r_reports r = fst (fst (run_groups ok (length rows) (groups 5 rows) 0 0)) /\
  r_errors r = snd (run_groups ok (length rows) (groups 5 rows) 0 0) /\
  r_summary r = (if 0 <? r_errors r then Partial (length rows - r_errors r) (r_errors r)
                 else Full (length rows)).
Proof.
  unfold handleRun. destruct rows as [|x xs]; [discriminate|].
  destruct (run_groups ok _ _ 0 0) as [[rs d] e]. intros H.
  injection H as <-. repeat split; reflexivity.
Qed.

Lemma handleVerify_shape {A} sc co (ok : A -> bool) rows r :
  handleVerify sc co ok rows = Ran r ->
  r_groups r = groups 5 rows /\
  r_reports r = fst (fst (run_groups ok (length rows) (groups 5 rows) 0 0)) /\
  r_errors r = snd (run_groups ok (length rows) (groups 5 rows) 0 0) /\
  r_summary r = (if 0 <? r_errors r then Partial (length rows - r_errors r) (r_errors r)
                 else Full (length rows)).
Proof.
  unfold handleVerify. destruct rows as [|x xs]; [discriminate|].
  destruct (negb sc && negb co); [discriminate|].
  destruct (run_groups ok _ _ 0 0) as [[rs d] e]. intros H.
  injection H as <-. repeat split; reflexivity.
Qed.

Lemma run_groups_errors {A} (ok : A -> bool) N gs done errors :
  snd (run_groups ok N gs done errors)
  = errors + length (filter (fun x => negb (ok x)) (concat gs)).
Proof.
  revert done errors. induction gs as [|g gs IH]; intros done errors; simpl.
  - lia.
  - destruct (run_groups ok N gs _ _) as [[rs d] e] eqn:E. simpl.
    specialize (IH (done + length g)
                   (errors + length (filter (fun x => negb (ok x)) g))).
    rewrite E in IH. simpl in IH. rewrite IH, filter_app, length_app. lia.
Qed.

(** The per-item failures of [handleRun] are tallied: the counter ends at the
    number of failing rows and the toast splits successes from failures. *)
Lemma handleRun_counts {A} (ok : A -> bool) rows r :
  handleRun ok rows = Some r ->
  let F := length (filter (fun x => negb (ok x)) rows) in
  r_errors r = F /\
  r_summary r = (if 0 <? F then Partial (length rows - F) F else Full (length rows)).
Proof.
  intros H. destruct (handleRun_shape ok rows r H) as (_ & _ & He & Hs).
  rewrite run_groups_errors, groups_concat in He by lia. simpl in He.
  simpl. rewrite Hs, He. split; reflexivity.
Qed.

(** ** C1 (amended)
    Every enrichment or verification run (batch size 5) reports, after each
    group, [done = min(done + group.length, N)] starting from 0; the reports
    are non-decreasing, never above [N], and the last one is [N]. The CSV
    import (batch size 50) reports the same sequence when every row insert
    succeeds; when one fails it stops before reporting that group, so its
    reports are a prefix of that sequence. For 12 rows in groups of 5 the
    reports are 5, 10, 12. *)
Theorem batch_progress :
  (forall (A : Type) (ok : A -> bool) (rows : list A) r,
      handleRun ok rows = Some r ->
      progress_props (length rows) (r_groups r) (r_reports r) /\
      concat (r_groups r) = rows /\
      Forall (fun g => 0 < length g <= 5) (r_groups r)) /\
  (forall (A : Type) sc co (ok : A -> bool) (rows : list A) r,
      handleVerify sc co ok rows = Ran r ->
      progress_props (length rows) (r_groups r) (r_reports r) /\
      concat (r_groups r) = rows /\
      Forall (fun g => 0 < length g <= 5) (r_groups r)) /\
  (forall (A : Type) (rows : list A),
      progress_props (length rows) (groups 50 rows)
        (csvImportProgress (fun _ => true) rows)) /\
  (forall (A : Type) (insertOk : list A -> bool) (rows : list A),
      exists sfx, csvImportProgress insertOk rows ++ sfx
                  = csvImportProgress (fun _ => true) rows) /\
  option_map r_reports (handleRun (fun _ => true) (repeat tt 12))
  = Some [5; 10; 12].
Proof.
  split; [|split; [|split; [|split]]].
  - intros A ok rows r H. destruct (handleRun_shape ok rows r H) as (Hg & Hr & _).
    rewrite Hg, Hr. split; [apply run_groups_progress; lia|].
    split; [apply groups_concat; lia | apply groups_from_sizes; lia].
  - intros A sc co ok rows r H.
    destruct (handleVerify_shape sc co ok rows r H) as (Hg & Hr & _).
    rewrite Hg, Hr. split; [apply run_groups_progress; lia|].
    split; [apply groups_concat; lia | apply groups_from_sizes; lia].
  - intros A rows. unfold csvImportProgress, groups.
    rewrite (csv_loop_all_ok 50 (fun _ => true) rows (length rows) 0 0).
    apply (run_groups_progress (fun _ => true) 50 rows 0). lia.
  - intros A insertOk rows. apply csv_loop_prefix.
  - reflexivity.
Qed.

(** C1 counterexample: a 60-row CSV import whose second row insert fails
    stops after reporting 50, so its final report is not 60. *)
Lemma batch_progress_import_stops :
  csvImportProgress (fun b : list unit => length b =? 50) (repeat tt 60) = [50] /\
  last (csvImportProgress (fun b : list unit => length b =? 50) (repeat tt 60)) 0
  <> 60.
Proof. split; [reflexivity | simpl; discriminate]. Qed.

Lemma batch_progress_witness :
  handleRun (fun _ => true) [tt; tt]
  = Some {| r_groups := [[tt; tt]]; r_reports := [2]; r_errors := 0;
            r_summary := Full 2 |} /\
  progress_props 2 [[tt; tt]] [2].
Proof.
  split; [reflexivity|].
  exact (proj1 (proj1 batch_progress unit (fun _ => true) [tt; tt] _ eq_refl)).
Defined.

(** ** C2 (code bug)
    [AiColumnModal.runEnrichment] catches each failed request but keeps no
    failure counter: on one row whose request fails it reports no failure
    and toasts "Enriched 1 rows", while [RunAiColumnModal.handleRun] on the
    same input counts one failure and reports 0 succeeded, 1 failed. *)
Theorem runEnrichment_failure_uncounted :
  r_errors (runEnrichment (fun _ : unit => false) [tt]) = 0 /\
  r_summary (runEnrichment (fun _ : unit => false) [tt]) = Full 1 /\
  option_map r_summary (handleRun (fun _ : unit => false) [tt])
  = Some (Partial 0 1).
Proof. repeat split. Qed.

End BatchClaims.

(* ----------------------------------------------------------------- *)
(** ** Client cell cache *)

Module CacheFacts.
Import Cache.

Lemma findIndex_some {A} (p : A -> bool) l i :
  findIndex p l = Some i ->
  exists l1 x l2, l = l1 ++ x :: l2 /\ length l1 = i /\
                  Forall (fun y => p y = false) l1 /\ p x = true.
Proof.
  revert i. induction l as [|y ys IH]; intros i H; simpl in H; [discriminate|].
  destruct (p y) eqn:Hy.
  - injection H as <-. exists [], y, ys. repeat split; auto.
  - destruct (findIndex p ys) as [k|] eqn:Hk; [|discriminate].
    injection H as <-. destruct (IH k eq_refl) as (l1 & x & l2 & -> & <- & Hf & Hx).
    exists (y :: l1), x, l2. repeat split; auto.
Qed.

Lemma findIndex_none {A} (p : A -> bool) l :
  findIndex p l = None -> Forall (fun y => p y = false) l.
Proof.
  induction l as [|y ys IH]; intros H; simpl in H; [constructor|].
  destruct (p y) eqn:Hy; [discriminate|].
  destruct (findIndex p ys); [discriminate|]. constructor; auto.
Qed.

Lemma set_at_middle {A} (l1 l2 : list A) x y :
  set_at (l1 ++ x :: l2) (length l1) y = l1 ++ y :: l2.
Proof. induction l1 as [|z zs IH]; simpl; [reflexivity|]. rewrite IH. reflexivity. Qed.

Lemma filter_none {A} (p : A -> bool) l :
  Forall (fun y => p y = false) l -> filter p l = [].
Proof. induction 1 as [|y ys Hy _ IH]; simpl; [|rewrite Hy]; auto. Qed.

Lemma same_key_with_value cv v r c :
  same_key (with_value cv v) r c = same_key cv r c.
Proof. reflexivity. Qed.

(** The two branches of [upsert_local]. *)
Lemma upsert_local_cases l r c v :
  (exists l1 x l2, l = l1 ++ x :: l2 /\
     Forall (fun y => same_key y r c = false) l1 /\ same_key x r c = true /\
     upsert_local l r c v = l1 ++ with_value x v :: l2) \/
  (Forall (fun y => same_key y r c = false) l /\
   upsert_local l r c v
   = l ++ [{| cv_id := EmptyString; row_id := r; column_id := c; value := v;
              created_at := EmptyString |}]).
Proof.
  unfold upsert_local.
  destruct (findIndex (fun cv => same_key cv r c) l) as [i|] eqn:Hf.
  - left. destruct (findIndex_some _ _ _ Hf) as (l1 & x & l2 & -> & <- & Hl1 & Hx).
    exists l1, x, l2. repeat split; auto.
    rewrite nth_middle, set_at_middle. reflexivity.
  - right. split; [apply findIndex_none; assumption | reflexivity].
Qed.

Lemma same_key_fresh r c v :
  same_key {| cv_id := EmptyString; row_id := r; column_id := c; value := v;
              created_at := EmptyString |} r c = true.
Proof. unfold same_key. simpl. rewrite !String.eqb_refl. reflexivity. Qed.

Lemma same_key_eq cv r c :
  same_key cv r c = true -> cv.(row_id) = r /\ cv.(column_id) = c.
Proof.
  unfold same_key. rewrite andb_true_iff, !String.eqb_eq. tauto.
Qed.

Lemma count_key_upsert l r c v :
  count_key (upsert_local l r c v) r c = Nat.max 1 (count_key l r c).
Proof.
  unfold count_key.
  destruct (upsert_local_cases l r c v)
    as [(l1 & x & l2 & -> & Hl1 & Hx & ->) | (Hl & ->)].
  - rewrite !filter_app, (filter_none _ l1 Hl1). simpl.
    rewrite same_key_with_value, Hx. simpl. lia.
  - rewrite filter_app, (filter_none _ l Hl). simpl.
    rewrite same_key_fresh. reflexivity.
Qed.

Lemma count_key_upsert_other l r c v r' c' :
  (r', c') <> (r, c) ->
  count_key (upsert_local l r c v) r' c' = count_key l r' c'.
Proof.
  intros Hne. unfold count_key.
  destruct (upsert_local_cases l r c v)
    as [(l1 & x & l2 & -> & Hl1 & Hx & ->) | (Hl & ->)].
  - rewrite !filter_app, !length_app. simpl. rewrite same_key_with_value.
    destruct (same_key x r' c'); reflexivity.
  - rewrite filter_app, length_app. simpl.
    destruct (same_key _ r' c') eqn:E.
    + apply same_key_eq in E. simpl in E. destruct E; subst. congruence.
    + simpl. lia.
Qed.

(** With at most one entry at [(r, c)] before, exactly one entry, holding
    [v], is there after. *)
Lemma upsert_single l r c v :
  count_key l r c <= 1 ->
  exists cv, filter (fun cv => same_key cv r c) (upsert_local l r c v) = [cv] /\
             cv.(value) = v.
Proof.
  intros Hc. unfold count_key in Hc.
  destruct (upsert_local_cases l r c v)
    as [(l1 & x & l2 & -> & Hl1 & Hx & ->) | (Hl & ->)].
  - rewrite filter_app, (filter_none _ l1 Hl1) in *. simpl in *.
    rewrite Hx in Hc. simpl in Hc.
    rewrite same_key_with_value, Hx.
    destruct (filter (fun cv => same_key cv r c) l2) eqn:E2; [|simpl in Hc; lia].
    eexists; split; reflexivity.
  - rewrite filter_app, (filter_none _ l Hl). simpl. rewrite same_key_fresh.
    eexists; split; reflexivity.
Qed.

Lemma grid_value_acc l r c acc :
  fold_left (fun acc cv => if same_key cv r c then Some cv.(value) else acc) l acc
  = fold_left (fun acc cv => if same_key cv r c then Some cv.(value) else acc)
      (filter (fun cv => same_key cv r c) l) acc.
Proof.
  revert acc. induction l as [|y ys IH]; intros acc; simpl; [reflexivity|].
  destruct (same_key y r c) eqn:E; simpl; [rewrite E|]; apply IH.
Qed.

Lemma grid_value_single l r c cv :
  filter (fun cv => same_key cv r c) l = [cv] -> grid_value l r c = Some cv.(value).
Proof.
  intros H. unfold grid_value. rewrite grid_value_acc, H. simpl.
  assert (Hin : In cv (filter (fun cv => same_key cv r c) l)) by (rewrite H; left; auto).
  apply filter_In in Hin. destruct Hin as [_ ->]. reflexivity.
Qed.

(** Read after write through the cache. *)
Lemma grid_value_upsert l r c v :
  count_key l r c <= 1 -> grid_value (upsert_local l r c v) r c = Some v.
Proof.
  intros Hc. destruct (upsert_single l r c v Hc) as (cv & Hf & Hv).
  rewrite (grid_value_single _ _ _ _ Hf), Hv. reflexivity.
Qed.

Lemma count_key_upsert_le l r c v r' c' :
  count_key l r' c' <= 1 -> count_key (upsert_local l r c v) r' c' <= 1.
Proof.
  intros H.
  destruct (string_dec r' r) as [->|Hr]; destruct (string_dec c' c) as [->|Hc].
  - rewrite count_key_upsert. lia.
  - rewrite count_key_upsert_other by congruence. assumption.
  - rewrite count_key_upsert_other by congruence. assumption.
  - rewrite count_key_upsert_other by congruence. assumption.
Qed.

End CacheFacts.

Module CacheClaims.
Import Cache CacheFacts.
Local Open Scope string_scope.

(** ** C3
    Upserting the same value twice at [(r, c)] leaves exactly one entry at
    that key, holding the value; an upsert never adds an entry for a key
    already present (the count at the key becomes [max 1 count]); and any
    sequence of upserts keeps a cache with at most one entry per key so. *)
Theorem upsert_idempotent_unique :
  (forall cache r c v, count_key cache r c <= 1 ->
     exists cv, filter (fun cv => same_key cv r c)
                  (upsert_local (upsert_local cache r c v) r c v) = [cv] /\
                cv.(value) = v) /\
  (forall cache r c v,
     count_key (upsert_local cache r c v) r c = Nat.max 1 (count_key cache r c)) /\
  (forall cache (ups : list (string * string * string)),
     unique_keys cache ->
     unique_keys (fold_left (fun acc '(r, c, v) => upsert_local acc r c v) ups cache)).
Proof.
  split; [|split].
  - intros cache r c v Hc. apply upsert_single.
    rewrite count_key_upsert. lia.
  - apply count_key_upsert.
  - intros cache ups. revert cache.
    induction ups as [|[[r c] v] ups IH]; intros cache Hu; simpl; [assumption|].
    apply IH. intros r' c'. apply count_key_upsert_le, Hu.
Qed.

Lemma upsert_idempotent_unique_witness :
  exists cv, filter (fun cv => same_key cv "r1" "c1")
               (upsert_local (upsert_local [] "r1" "c1" "x") "r1" "c1" "x") = [cv] /\
             cv.(value) = "x".
Proof.
  exact (proj1 upsert_idempotent_unique [] "r1" "c1" "x" (le_0_n 1)).
Defined.

End CacheClaims.

(* ----------------------------------------------------------------- *)
(** ** Undo / redo *)

Module LedgerClaims.
Import Cache CacheFacts Ledger.
Local Open Scope string_scope.

(** ** C4
    A confirmed, stored edit of [(r, c)] from [a] to [b] leaves [b] in the
    grid and an empty redo stack; undo brings back [a] and moves the same
    entry on top of the redo stack; redo brings back [b] and moves the same
    entry back on top of the undo stack. *)
Theorem undo_redo_inverse :
  forall st r c b,
  let a := js_string (grid_value st.(cellValues) r c) in
  let E := {| e_rowId := r; e_columnId := c; oldValue := a; newValue := b |} in
  count_key st.(cellValues) r c <= 1 -> a <> b ->
  let st1 := fst (handleCellEditRequest true true st
                    {| ev_rowId := r; ev_field := c;
                       ev_oldValue := grid_value st.(cellValues) r c;
                       ev_newValue := Some b |}) in
  let st2 := fst (performUndo true st1) in
  let st3 := fst (performRedo true st2) in
  (grid_value st1.(cellValues) r c = Some b /\ st1.(redoStack) = [] /\
   st1.(undoStack) = E :: st.(undoStack)) /\
  (grid_value st2.(cellValues) r c = Some a /\ st2.(redoStack) = [E] /\
   st2.(undoStack) = st.(undoStack)) /\
  (grid_value st3.(cellValues) r c = Some b /\ st3.(undoStack) = E :: st.(undoStack) /\
   st3.(redoStack) = []).
Proof.
  intros st r c b a E Hc Hab st1 st2 st3.
  assert (Hst1 : st1 = {| cellValues := upsert_local st.(cellValues) r c b;
                          undoStack := E :: st.(undoStack); redoStack := [] |}).
  { unfold st1, handleCellEditRequest. simpl. fold a.
    apply String.eqb_neq in Hab. rewrite Hab. reflexivity. }
  assert (Hst2 : st2 = {| cellValues := upsert_local (upsert_local st.(cellValues) r c b) r c a;
                          undoStack := st.(undoStack); redoStack := [E] |}).
  { unfold st2. rewrite Hst1. reflexivity. }
  assert (Hst3 : st3 = {| cellValues := upsert_local (upsert_local
                            (upsert_local st.(cellValues) r c b) r c a) r c b;
                          undoStack := E :: st.(undoStack); redoStack := [] |}).
  { unfold st3. rewrite Hst2. reflexivity. }
  rewrite Hst3, Hst2, Hst1. simpl.
  repeat split; apply grid_value_upsert; repeat apply count_key_upsert_le; assumption.
Qed.

Lemma undo_redo_inverse_witness :
  let st := {| cellValues := []; undoStack := []; redoStack := [] |} in
  grid_value (fst (performUndo true (fst (handleCellEditRequest true true st
     {| ev_rowId := "r1"; ev_field := "c1"; ev_oldValue := None;
        ev_newValue := Some "b" |})))).(cellValues) "r1" "c1" = Some EmptyString.
Proof.
  intros st.
  refine (proj1 (proj1 (proj2 (undo_redo_inverse st "r1" "c1" "b" _ _)))).
  - apply le_0_n.
  - discriminate.
Defined.

(** ** C8
    Undo (redo) on an empty stack changes nothing and only reports; a failed
    re-apply puts the popped entry back on its own stack, leaving the other
    stack and the cells as they were: the whole state is unchanged. *)
Theorem undo_redo_failure_keeps_history :
  (forall ok st, st.(undoStack) = [] -> performUndo ok st = (st, NothingToUndo)) /\
  (forall ok st, st.(redoStack) = [] -> performRedo ok st = (st, NothingToRedo)) /\
  (forall st e rest, st.(undoStack) = e :: rest -> performUndo false st = (st, UndoFailed)) /\
  (forall st e rest, st.(redoStack) = e :: rest -> performRedo false st = (st, RedoFailed)).
Proof.
  repeat split.
  - intros ok [cv u r] H. simpl in H. subst. reflexivity.
  - intros ok [cv u r] H. simpl in H. subst. reflexivity.
  - intros [cv u r] e rest H. simpl in H. subst. reflexivity.
  - intros [cv u r] e rest H. simpl in H. subst. reflexivity.
Qed.

Lemma undo_redo_failure_keeps_history_witness :
  let e := {| e_rowId := "r1"; e_columnId := "c1"; oldValue := "a"; newValue := "b" |} in
  let st := {| cellValues := []; undoStack := [e]; redoStack := [e] |} in
  performUndo true {| cellValues := []; undoStack := []; redoStack := [] |}
  = ({| cellValues := []; undoStack := []; redoStack := [] |}, NothingToUndo) /\
  performRedo true {| cellValues := []; undoStack := []; redoStack := [] |}
  = ({| cellValues := []; undoStack := []; redoStack := [] |}, NothingToRedo) /\
  performUndo false st = (st, UndoFailed) /\ performRedo false st = (st, RedoFailed).
Proof.
  intros e st.
  destruct undo_redo_failure_keeps_history as (H1 & H2 & H3 & H4).
  split; [apply H1; reflexivity|].
  split; [apply H2; reflexivity|].
  split; [apply (H3 st e []); reflexivity | apply (H4 st e []); reflexivity].
Defined.

(** ** C10
    An edit whose stringified new value equals the stringified old value
    returns at once: no confirmation, no store write, no change to the cells
    or to either stack. *)
Theorem edit_noop_when_unchanged :
  forall confirmed storeOk st ev,
  js_string ev.(ev_oldValue) = js_string ev.(ev_newValue) ->
  handleCellEditRequest confirmed storeOk st ev = (st, []).
Proof.
  intros confirmed storeOk st ev H. unfold handleCellEditRequest.
  rewrite H, String.eqb_refl. reflexivity.
Qed.

Lemma edit_noop_when_unchanged_witness :
  let st := {| cellValues := []; undoStack := []; redoStack := [] |} in
  handleCellEditRequest true true st
    {| ev_rowId := "r1"; ev_field := "c1"; ev_oldValue := None;
       ev_newValue := Some EmptyString |} = (st, []).
Proof.
  intros st. apply edit_noop_when_unchanged. reflexivity.
Defined.

End LedgerClaims.

(* ----------------------------------------------------------------- *)
(** ** Fuzzy column mapper *)

Module MapperClaims.
Import Types Mapper.
Local Open Scope string_scope.

Lemma prefix_spec (t s : string) :
  String.prefix t s = true <-> exists q, s = t ++ q.
Proof.
  revert s. induction t as [|a t IH]; intros s; simpl.
  - split; [intros _; exists s; reflexivity | intros _; destruct s; reflexivity].
  - destruct s as [|b s]; simpl.
    + split; [discriminate | intros [q Hq]; discriminate].
    + destruct (ascii_dec a b) as [->|Hab].
      * rewrite IH. split; intros [q Hq]; exists q; [rewrite Hq | injection Hq as Hq];
          auto.
      * split; [discriminate | intros [q Hq]; injection Hq; congruence].
Qed.

Lemma includes_spec (s t : string) :
  includes s t = true <-> exists p q, s = p ++ t ++ q.
Proof.
  revert t. induction s as [|ch s IH]; intros t; cbn [includes];
    rewrite orb_true_iff.
  - rewrite prefix_spec. split.
    + intros [[q Hq]|]; [|discriminate]. exists EmptyString, q. exact Hq.
    + intros (p & q & Hpq). left. exists q.
      destruct p; [exact Hpq | discriminate].
  - rewrite prefix_spec, IH. split.
    + intros [[q Hq] | (p & q & Hpq)].
      * exists EmptyString, q. exact Hq.
      * exists (String ch p), q. rewrite Hpq. reflexivity.
    + intros (p & q & Hpq). destruct p as [|c p].
      * left. exists q. exact Hpq.
      * right. injection Hpq as _ Hs. exists p, q. exact Hs.
Qed.

(** The selection rule in the words of the spec: the normalized names are
    equal, or one contains the other. *)
Definition name_matches (label : string) (col : ColumnDefinition) : Prop :=
  let a := normalize label in
  let b := normalize col.(name) in
  b = a \/ (exists p q, b = p ++ a ++ q) \/ (exists p q, a = p ++ b ++ q).

Definition matches_b (label : string) (col : ColumnDefinition) : bool :=
  let a := normalize label in
  let b := normalize col.(name) in
  String.eqb b a || includes b a || includes a b.

Lemma matches_b_spec label col :
  matches_b label col = true <-> name_matches label col.
Proof.
  unfold matches_b, name_matches.
  rewrite !orb_true_iff, String.eqb_eq, !includes_spec. tauto.
Qed.

Lemma findBestMatch_find columns label :
  findBestMatch columns label
  = match find (matches_b label) columns with
    | Some col => Target col.(id)
    | None => Create
    end.
Proof.
  unfold findBestMatch. induction columns as [|col rest IH]; simpl; [reflexivity|].
  unfold matches_b at 1.
  destruct (String.eqb (normalize (name col)) (normalize label)); simpl;
    [reflexivity|].
  destruct (includes _ _ || includes _ _); [reflexivity | exact IH].
Qed.

Lemma apolloAutoTarget_find columns label :
  apolloAutoTarget columns label
  = match find (matches_b label) columns with
    | Some col => Target col.(id)
    | None => Create
    end.
Proof.
  unfold apolloAutoTarget. induction columns as [|col rest IH]; simpl; [reflexivity|].
  unfold matches_b at 1.
  destruct (_ || _ || _); [reflexivity | exact IH].
Qed.

Lemma find_first {A} (f : A -> bool) l x :
  find f l = Some x <->
  exists pre post, l = (pre ++ x :: post)%list /\ Forall (fun y => f y = false) pre /\
                   f x = true.
Proof.
  induction l as [|y ys IH]; simpl.
  - split; [discriminate|]. intros (pre & post & H & _). destruct pre; discriminate.
  - destruct (f y) eqn:Hy. split.
    + intros H. injection H as <-. exists [], ys. auto.
    + intros (pre & post & H & Hf & Hx). destruct pre as [|z pre].
      * injection H as -> _. reflexivity.
      * injection H as -> _. inversion Hf. congruence.
    + rewrite IH. split.
      * intros (pre & post & -> & Hf & Hx). exists (y :: pre), post. auto.
      * intros (pre & post & H & Hf & Hx). destruct pre as [|z pre].
        -- injection H as -> _. congruence.
        -- injection H as -> H. inversion Hf. exists pre, post. auto.
Qed.

Lemma find_none_forall {A} (f : A -> bool) l :
  find f l = None <-> Forall (fun y => f y = false) l.
Proof.
  induction l as [|y ys IH]; simpl; [split; auto|].
  destruct (f y) eqn:Hy; split; intros H.
  - discriminate.
  - inversion H; congruence.
  - constructor; [assumption | apply IH, H].
  - inversion H. apply IH. assumption.
Qed.

Definition col (i n k : string) : ColumnDefinition :=
  {| id := i; name := n; field_key := k; is_ai_column := false |}.

(** ** C5
    [findBestMatch] selects the first column, in list order, whose
    normalized name equals the normalized header or contains it or is
    contained in it, and answers "create new" when no column matches; the
    Apollo auto-mapping decides the same way; "E-Mail Address" against
    ["Email"; "Phone"] maps to "Email". *)
Theorem findBestMatch_first_match :
  (forall columns label cid,
     findBestMatch columns label = Target cid <->
     exists pre c post, columns = (pre ++ c :: post)%list /\
       Forall (fun c' => ~ name_matches label c') pre /\
       name_matches label c /\ c.(id) = cid) /\
  (forall columns label,
     findBestMatch columns label = Create <->
     Forall (fun c => ~ name_matches label c) columns) /\
  (forall columns label, apolloAutoTarget columns label = findBestMatch columns label) /\
  findBestMatch [col "c1" "Email" "email"; col "c2" "Phone" "phone"] "E-Mail Address"
  = Target "c1".
Proof.
  split; [|split; [|split]].
  - intros columns label cid. rewrite findBestMatch_find. split.
    + destruct (find (matches_b label) columns) as [c|] eqn:Hf; [|discriminate].
      intros H. injection H as <-.
      apply find_first in Hf. destruct Hf as (pre & post & -> & Hpre & Hc).
      exists pre, c, post. repeat split; auto.
      * eapply Forall_impl; [|exact Hpre]. simpl. intros c' Hc' Hm.
        apply matches_b_spec in Hm. congruence.
      * apply matches_b_spec. exact Hc.
    + intros (pre & c & post & -> & Hpre & Hc & <-).
      assert (Hf : find (matches_b label) (pre ++ c :: post)%list = Some c).
      { apply find_first. exists pre, post. repeat split.
        - eapply Forall_impl; [|exact Hpre]. simpl. intros c' Hn.
          destruct (matches_b label c') eqn:E; [|reflexivity].
          exfalso. apply Hn, matches_b_spec, E.
        - apply matches_b_spec, Hc. }
      rewrite Hf. reflexivity.
  - intros columns label. rewrite findBestMatch_find. split.
    + destruct (find (matches_b label) columns) eqn:Hf; [discriminate|]. intros _.
      apply find_none_forall in Hf. eapply Forall_impl; [|exact Hf].
      simpl. intros c Hc Hm. apply matches_b_spec in Hm. congruence.
    + intros Hall.
      assert (Hf : find (matches_b label) columns = None).
      { apply find_none_forall. eapply Forall_impl; [|exact Hall]. simpl.
        intros c Hn. destruct (matches_b label c) eqn:E; [|reflexivity].
        exfalso. apply Hn, matches_b_spec, E. }
      rewrite Hf. reflexivity.
  - intros columns label. rewrite apolloAutoTarget_find, findBestMatch_find.
    reflexivity.
  - vm_compute. reflexivity.
Qed.

Lemma findBestMatch_first_match_witness :
  findBestMatch [col "c1" "Company" "company"] "Company Name" = Target "c1".
Proof.
  apply (proj1 findBestMatch_first_match). exists [], (col "c1" "Company" "company"), [].
  split; [reflexivity|]. split; [constructor|]. split; [|reflexivity].
  right; right. exists EmptyString, "name". vm_compute. reflexivity.
Defined.

End MapperClaims.

(* ----------------------------------------------------------------- *)
(** ** Candidate rows *)

Module PoolClaims.
Import Types Pools.

(** ** C6
    With skip-existing on, a candidate row whose target cell is non-empty is
    left out of the executed set, and with it off such a row is kept; this
    holds for AI enrichment (target: the AI column) and for email
    verification (target: the Email Status column, for rows with an email).
    Verification always leaves out rows whose email is blank or missing. *)
Theorem skip_existing_semantics :
  (forall col gridRows rowCount skip row,
     In row (firstn rowCount gridRows) ->
     js_blank (row.(cell) col.(id)) = false ->
     (In row (getRowsToRun (Some col) gridRows rowCount skip) <-> skip = false)) /\
  (forall columns gridRows mode sel rowCount skip emailCol statusCol row,
     find_field columns "email"%string = Some emailCol ->
     find_field columns "email_status"%string = Some statusCol ->
     In row (verify_pool gridRows mode sel rowCount) ->
     has_email (row.(cell) emailCol.(id)) = true ->
     js_blank (row.(cell) statusCol.(id)) = false ->
     (In row (getRowsToVerify columns gridRows mode sel rowCount skip) <-> skip = false)) /\
  (forall columns gridRows mode sel rowCount skip row,
     match find_field columns "email"%string with
     | Some emailCol => has_email (row.(cell) emailCol.(id)) = false
     | None => True
     end ->
     ~ In row (getRowsToVerify columns gridRows mode sel rowCount skip)).
Proof.
  split; [|split].
  - intros col gridRows rowCount skip row Hin Hne. simpl.
    destruct skip; rewrite ?filter_In; split; intros H.
    + destruct H as [_ H]. congruence.
    + discriminate.
    + reflexivity.
    + exact Hin.
  - intros columns gridRows mode sel rowCount skip emailCol statusCol row
      He Hs Hin Hm Hne.
    unfold getRowsToVerify. rewrite He, Hs.
    destruct skip; rewrite ?filter_In; split; intros H.
    + destruct H as [_ H]. congruence.
    + discriminate.
    + reflexivity.
    + split; assumption.
  - intros columns gridRows mode sel rowCount skip row H Hin.
    unfold getRowsToVerify in Hin.
    destruct (find_field columns "email"%string) as [emailCol|] eqn:E;
      [|exact Hin].
    assert (Hp : In row (filter (fun row => has_email (row.(cell) emailCol.(id)))
                           (verify_pool gridRows mode sel rowCount))).
    { destruct skip, (find_field columns "email_status"%string);
        try exact Hin. apply filter_In in Hin. apply Hin. }
    apply filter_In in Hp. destruct Hp as [_ Hp]. congruence.
Qed.

Definition sample_row (status : option string) : GridRow :=
  {| _rowId := "r1"%string;
     cell := fun c => if String.eqb c "c_email" then Some "a@b.co"%string
                      else if String.eqb c "c_status" then status else None |}.

Definition email_col : ColumnDefinition :=
  {| id := "c_email"; name := "Email"; field_key := "email"; is_ai_column := false |}%string.

Definition status_col : ColumnDefinition :=
  {| id := "c_status"; name := "Email Status"; field_key := "email_status";
     is_ai_column := false |}%string.

Lemma skip_existing_semantics_witness :
  ~ In (sample_row (Some "valid"%string))
      (getRowsToRun (Some status_col) [sample_row (Some "valid"%string)] 1 true) /\
  In (sample_row (Some "valid"%string))
     (getRowsToVerify [email_col; status_col] [sample_row (Some "valid"%string)]
        top_n [] 1 false).
Proof.
  split.
  - intros H.
    pose proof (proj1 skip_existing_semantics status_col
                  [sample_row (Some "valid"%string)] 1 true
                  (sample_row (Some "valid"%string)) (or_introl eq_refl) eq_refl)
      as Hiff.
    apply Hiff in H. discriminate.
  - apply (proj1 (proj2 skip_existing_semantics) [email_col; status_col]
             [sample_row (Some "valid"%string)] top_n [] 1 false email_col status_col
             (sample_row (Some "valid"%string))
             eq_refl eq_refl (or_introl eq_refl) eq_refl eq_refl).
    reflexivity.
Defined.

End PoolClaims.

(* ----------------------------------------------------------------- *)
(** ** Store proxy deletes *)

Module RouteFacts.
Import Cache Types Route.

(** [w'] holds a subset of the cells, columns and rows of [w]. *)
Definition shrinks (s s' : Store) : Prop :=
  incl (cell_values s') (cell_values s) /\
  incl (column_definitions s') (column_definitions s) /\
  incl (rows s') (rows s).

Lemma shrinks_refl s : shrinks s s.
Proof. repeat split; apply incl_refl. Qed.

Lemma shrinks_trans s1 s2 s3 : shrinks s1 s2 -> shrinks s2 s3 -> shrinks s1 s3.
Proof.
  intros (H1 & H2 & H3) (H4 & H5 & H6).
  repeat split; eapply incl_tran; eassumption.
Qed.

Lemma filter_incl {T} (f : T -> bool) (l : list T) : incl (filter f l) l.
Proof. intros x Hx. apply filter_In in Hx. tauto. Qed.

Create HintDb route.
Local Hint Resolve incl_refl filter_incl shrinks_refl : route.

Lemma existsb_false_iff {T} (f : T -> bool) l :
  existsb f l = false -> forall x, In x l -> f x = false.
Proof.
  intros H x Hx. destruct (f x) eqn:Fx; [|reflexivity].
  assert (existsb f l = true) by (apply existsb_exists; eauto).
  congruence.
Qed.

Lemma apply_call_shrinks fk c s s' :
  apply_call fk c s = Some s' -> shrinks s s'.
Proof.
  destruct c, fk; simpl;
    try destruct existsb; intros H; inversion H; subst;
    repeat split; simpl; auto with route.
Qed.

Lemma exec_shrinks fk c w b w' :
  exec fk c w = (b, w') -> shrinks (store w) (store w') /\ log w' = log w ++ [c].
Proof.
  unfold exec. destruct (outcomes w) as [|o os];
    [|destruct o]; try destruct (apply_call fk c (store w)) eqn:E;
    intros H; inversion H; subst; simpl;
    eauto using apply_call_shrinks with route.
Qed.

Lemma exec_true fk c w w' :
  exec fk c w = (true, w') -> apply_call fk c (store w) = Some (store w').
Proof.
  unfold exec. destruct (outcomes w) as [|o os];
    [|destruct o]; try destruct (apply_call fk c (store w)) eqn:E;
    intros H; inversion H; subst; simpl; reflexivity.
Qed.

Lemma mem_spec x xs : mem x xs = true <-> In x xs.
Proof.
  unfold mem. rewrite existsb_exists. split.
  - intros [y [Hy Heq]]. apply String.eqb_eq in Heq. subst. exact Hy.
  - intros H. exists x. split; [exact H|]. apply String.eqb_refl.
Qed.

Definition column_gone (cid : string) (s : Store) : Prop :=
  (forall cv, In cv (cell_values s) -> column_id cv <> cid) /\
  (forall col, In col (column_definitions s) -> id col <> cid).

Definition rows_gone (ids : list string) (s : Store) : Prop :=
  (forall cv, In cv (cell_values s) -> ~ In (row_id cv) ids) /\
  (forall r, In r (rows s) -> ~ In r ids).

Lemma column_gone_shrinks cid s s' :
  shrinks s s' -> column_gone cid s -> column_gone cid s'.
Proof. intros (H1 & H2 & _) [G1 G2]. split; auto. Qed.

Lemma rows_gone_shrinks ids s s' :
  shrinks s s' -> rows_gone ids s -> rows_gone ids s'.
Proof. intros (H1 & _ & H3) [G1 G2]. split; auto. Qed.

Lemma negb_eqb_neq a b : negb (String.eqb a b) = true -> a <> b.
Proof. intros H Heq. subst. rewrite String.eqb_refl in H. discriminate. Qed.

Lemma negb_mem_nin x xs : negb (mem x xs) = true -> ~ In x xs.
Proof. intros H Hin. apply mem_spec in Hin. rewrite Hin in H. discriminate. Qed.

Lemma apply_DeleteColumn_gone fk cid s s' :
  apply_call fk (DeleteColumn cid) s = Some s' -> column_gone cid s'.
Proof.
  destruct fk; simpl.
  - intros H. inversion H; subst; clear H. split; simpl;
      intros x Hx; apply filter_In in Hx; apply negb_eqb_neq; tauto.
  - destruct (existsb (fun cv => String.eqb (column_id cv) cid) (cell_values s)) eqn:E;
      [discriminate|].
    intros H. inversion H; subst; clear H. split; simpl.
    + intros cv Hcv Heq. apply (existsb_false_iff _ _ E) in Hcv.
      rewrite Heq, String.eqb_refl in Hcv. discriminate.
    + intros x Hx; apply filter_In in Hx; apply negb_eqb_neq; tauto.
Qed.

Lemma apply_DeleteRows_gone fk ids s s' :
  apply_call fk (DeleteRows ids) s = Some s' -> rows_gone ids s'.
Proof.
  destruct fk; simpl.
  - intros H. inversion H; subst; clear H. split; simpl;
      intros x Hx; apply filter_In in Hx; apply negb_mem_nin; tauto.
  - destruct (existsb (fun cv => mem (row_id cv) ids) (cell_values s)) eqn:E;
      [discriminate|].
    intros H. inversion H; subst; clear H. split; simpl.
    + intros cv Hcv Hin. apply (existsb_false_iff _ _ E) in Hcv.
      apply mem_spec in Hin. rewrite Hin in Hcv. discriminate.
    + intros x Hx; apply filter_In in Hx; apply negb_mem_nin; tauto.
Qed.

Lemma delete_cells_batches_spec fk bs w :
  shrinks (store w) (store (delete_cells_batches fk bs w)) /\
  log (delete_cells_batches fk bs w) = log w ++ map DeleteCellsOfRows bs.
Proof.
  revert w. induction bs as [|b bs IH]; intros w; simpl.
  - rewrite app_nil_r. auto with route.
  - destruct (exec fk (DeleteCellsOfRows b) w) as [ok w1] eqn:E. simpl.
    apply exec_shrinks in E as [Hs Hl].
    destruct (IH w1) as [Hs' Hl']. split.
    + eapply shrinks_trans; eassumption.
    + rewrite Hl', Hl, <- app_assoc. reflexivity.
Qed.

Lemma delete_rows_batches_shrinks fk bs w :
  shrinks (store w) (store (snd (delete_rows_batches fk bs w))).
Proof.
  revert w. induction bs as [|b bs IH]; intros w; simpl; auto with route.
  destruct (exec fk (DeleteRows b) w) as [ok w1] eqn:E.
  apply exec_shrinks in E as [Hs _].
  destruct ok; simpl; [eapply shrinks_trans; [exact Hs | apply IH] | exact Hs].
Qed.

Lemma delete_rows_batches_deleted fk bs w w' :
  delete_rows_batches fk bs w = (deleted, w') ->
  log w' = log w ++ map DeleteRows bs /\
  forall b, In b bs -> rows_gone b (store w').
Proof.
  revert w. induction bs as [|b bs IH]; intros w; simpl.
  - intros H. inversion H; subst. rewrite app_nil_r. split; [reflexivity | tauto].
  - destruct (exec fk (DeleteRows b) w) as [ok w1] eqn:E.
    destruct ok; [|discriminate]. intros H.
    pose proof (exec_true _ _ _ _ E) as Hap.
    apply exec_shrinks in E as [_ Hl].
    destruct (IH w1 H) as [Hl' Hg]. split.
    + rewrite Hl', Hl, <- app_assoc. reflexivity.
    + intros b' [<-|Hin]; [|auto].
      apply rows_gone_shrinks with (store w1).
      * pose proof (delete_rows_batches_shrinks fk bs w1) as Hs.
        rewrite H in Hs. exact Hs.
      * exact (apply_DeleteRows_gone _ _ _ _ Hap).
Qed.

End RouteFacts.

Module RouteClaims.
Import Cache Types Route RouteFacts.

(** Claim C7: a [delete_column] that answers success has issued the cell
    delete for the column and then the column delete, in that order, and no
    cell value of that column and no column with that id remains. A
    [delete_rows] that answers success has issued the cell deletes of every
    batch of 50 ids, then the row deletes of every batch, and no cell value
    of a deleted row and no deleted row remains. The cell deletes of
    [delete_rows] are not checked for errors: when one fails, it is the
    store's foreign key action (cascade or restrict, both covered) that
    leaves no orphan cell behind. *)
Theorem cascade_cells_then_parent :
  (forall fk columnId w w',
     delete_column fk columnId w = (deleted, w') ->
     log w' = log w ++ [DeleteCellsOfColumn columnId; DeleteColumn columnId] /\
     (forall cv, In cv (cell_values (store w')) -> column_id cv <> columnId) /\
     (forall col, In col (column_definitions (store w')) -> id col <> columnId)) /\
  (forall fk rowIds w w',
     delete_rows fk rowIds w = (deleted, w') ->
     log w' = log w ++ map DeleteCellsOfRows (Batch.groups 50 rowIds)
                    ++ map DeleteRows (Batch.groups 50 rowIds) /\
     (forall cv, In cv (cell_values (store w')) -> ~ In (row_id cv) rowIds) /\
     (forall r, In r (rows (store w')) -> ~ In r rowIds)).
Proof.
  split.
  - intros fk columnId w w'. unfold delete_column.
    destruct (exec fk (DeleteCellsOfColumn columnId) w) as [ok1 w1] eqn:E1.
    destruct ok1; [|discriminate]. simpl.
    destruct (exec fk (DeleteColumn columnId) w1) as [ok2 w2] eqn:E2.
    destruct ok2; [|discriminate]. simpl. intros H. inversion H; subst w2; clear H.
    pose proof (exec_true _ _ _ _ E2) as Hap.
    apply exec_shrinks in E1 as [_ Hl1]. apply exec_shrinks in E2 as [_ Hl2].
    destruct (apply_DeleteColumn_gone _ _ _ _ Hap) as [G1 G2].
    split; [|split; assumption].
    rewrite Hl2, Hl1, <- app_assoc. reflexivity.
  - intros fk rowIds w w'. unfold delete_rows. intros H.
    destruct (delete_cells_batches_spec fk (Batch.groups 50 rowIds) w) as [_ Hl1].
    destruct (delete_rows_batches_deleted _ _ _ _ H) as [Hl2 Hg].
    split.
    + rewrite Hl2, Hl1, <- app_assoc. reflexivity.
    + assert (Hcover : forall x, In x rowIds ->
                exists b, In b (Batch.groups 50 rowIds) /\ In x b).
      { intros x Hx. apply in_concat.
        rewrite (BatchFacts.groups_concat 50 rowIds) by lia. exact Hx. }
      split.
      * intros cv Hcv Hin. destruct (Hcover _ Hin) as [b [Hb Hxb]].
        exact (proj1 (Hg b Hb) cv Hcv Hxb).
      * intros r Hr Hin. destruct (Hcover _ Hin) as [b [Hb Hxb]].
        exact (proj2 (Hg b Hb) r Hr Hxb).
Qed.

Definition cell (cid rid colid : string) : CellValue :=
  {| cv_id := cid; row_id := rid; column_id := colid; value := "x";
     created_at := "t" |}%string.

Definition col_c1 : ColumnDefinition :=
  {| id := "c1"; name := "Notes"; field_key := "notes"; is_ai_column := false |}%string.

(** Two rows and one column; the first store call of the scenario fails. *)
Definition world0 : World :=
  {| store := {| cell_values := [cell "v1" "r1" "c1"; cell "v2" "r2" "c1"];
                 column_definitions := [col_c1];
                 rows := ["r1"; "r2"] |}%string;
     outcomes := [false];
     log := [] |}.

Lemma cascade_cells_then_parent_witness :
  delete_rows fk_cascade ["r1"%string] world0
    = (deleted, snd (delete_rows fk_cascade ["r1"%string] world0)) /\
  (forall r, In r (rows (store (snd (delete_rows fk_cascade ["r1"%string] world0)))) ->
             ~ In r ["r1"%string]) /\
  delete_column fk_cascade "c1"%string
      {| store := store world0; outcomes := []; log := [] |}
    = (deleted, snd (delete_column fk_cascade "c1"%string
                       {| store := store world0; outcomes := []; log := [] |})) /\
  (forall col, In col (column_definitions (store (snd (delete_column fk_cascade
                   "c1"%string {| store := store world0; outcomes := []; log := [] |}))))
               -> id col <> "c1"%string).
Proof.
  assert (H1 : delete_rows fk_cascade ["r1"%string] world0
               = (deleted, snd (delete_rows fk_cascade ["r1"%string] world0)))
    by (vm_compute; reflexivity).
  assert (H2 : delete_column fk_cascade "c1"%string
                 {| store := store world0; outcomes := []; log := [] |}
               = (deleted, snd (delete_column fk_cascade "c1"%string
                       {| store := store world0; outcomes := []; log := [] |})))
    by (vm_compute; reflexivity).
  split; [exact H1|]. split.
  - exact (proj2 (proj2 (proj2 cascade_cells_then_parent _ _ _ _ H1))).
  - split; [exact H2|].
    exact (proj2 (proj2 (proj1 cascade_cells_then_parent _ _ _ _ H2))).
Defined.

End RouteClaims.

(* ----------------------------------------------------------------- *)
(** ** Protected columns *)

Module ProtectedClaims.
Import Cache Types Route Settings.

Definition email_column : ColumnDefinition :=
  {| id := "c_email"; name := "Email"; field_key := "email";
     is_ai_column := false |}%string.

Definition people_world : World :=
  {| store := {| cell_values := [{| cv_id := "v1"; row_id := "r1";
                                    column_id := "c_email"; value := "a@b.co";
                                    created_at := "t" |}];
                 column_definitions := [email_column];
                 rows := ["r1"] |}%string;
     outcomes := [];
     log := [] |}.

(** Claim C9 (counterexample): the [email] column of a people workspace is
    protected, yet the proxy's [delete_column], called with its id, answers
    success and removes the column and its cell value: the operation
    performs no protection check, under either foreign key action. *)
Lemma protected_column_route_delete :
  isProtectedColumn (field_key email_column) people = true /\
  forall fk,
    fst (delete_column fk (id email_column) people_world) = deleted /\
    column_definitions (store (snd (delete_column fk (id email_column) people_world))) = [] /\
    cell_values (store (snd (delete_column fk (id email_column) people_world))) = [].
Proof.
  split; [vm_compute; reflexivity|].
  intros fk. destruct fk; vm_compute; repeat split.
Qed.

Lemma session_protected_effects column st events :
  Forall (fun eff => eff = Closed) (session true column st events).
Proof.
  revert st. induction events as [|e es IH]; intros st; simpl; [constructor|].
  destruct e; simpl; auto.
Qed.

(** Claim C9 (amended): in the column settings modal, a column whose
    [field_key] is protected for the active table type offers no way to
    delete it: whatever the user clicks or types, starting from any modal
    state, the only effect is closing the modal and [deleteColumn] is never
    called. The check lives in the modal; the proxy's [delete_column]
    itself deletes any column it is given. *)
Theorem protected_column_no_ui_delete column t st events :
  isProtectedColumn (field_key column) t = true ->
  Forall (fun eff => eff = Closed)
    (session (isProtected column (Some t)) column st events).
Proof.
  intros Hp. simpl. rewrite Hp. apply session_protected_effects.
Qed.

Definition fresh_modal : modal_state :=
  {| showDeleteConfirm := false; confirmText := EmptyString; deleting := false |}.

Lemma protected_column_no_ui_delete_witness :
  isProtectedColumn (field_key email_column) people = true /\
  Forall (fun eff => eff = Closed)
    (session (isProtected email_column (Some people)) email_column fresh_modal
       [ClickDeleteColumn; TypeConfirm "Email"%string; ClickConfirmDelete; ClickClose]) /\
  session false email_column fresh_modal
    [ClickDeleteColumn; TypeConfirm "Email"%string; ClickConfirmDelete]
    = [CallDeleteColumn "c_email"%string].
Proof.
  assert (Hp : isProtectedColumn (field_key email_column) people = true)
    by (vm_compute; reflexivity).
  split; [exact Hp|]. split.
  - exact (protected_column_no_ui_delete email_column people fresh_modal _ Hp).
  - vm_compute. reflexivity.
Defined.

End ProtectedClaims.

(* ----------------------------------------------------------------- *)
(** ** Paginated reads *)

Module ProxyFacts.
Import Proxy.

Section Pages.
Context {R : Type}.
Variable view : list R.

Lemma range_page from :
  range view from (from + PAGE_SIZE - 1) = firstn PAGE_SIZE (skipn from view).
Proof. unfold range, PAGE_SIZE. f_equal. lia. Qed.

Lemma page_length from :
  length (firstn PAGE_SIZE (skipn from view)) = Nat.min PAGE_SIZE (length view - from).
Proof. rewrite length_firstn, length_skipn. reflexivity. Qed.

Lemma firstn_split (l : list R) n m :
  firstn n l ++ firstn m (skipn n l) = firstn (n + m) l.
Proof.
  revert l. induction n as [|n IH]; intros [|x l]; simpl; auto.
  - destruct m; reflexivity.
  - f_equal. apply IH.
Qed.

Lemma firstn_page from :
  firstn from view ++ firstn PAGE_SIZE (skipn from view) = firstn (from + PAGE_SIZE) view.
Proof. apply firstn_split. Qed.


(** When the first [k] queries succeed and the next one fails, and the
    first [k] pages are full, the loop answers the error with the rows of
    those [k] pages. *)
Lemma paginated_loop_error fuel from k up :
  from + k * PAGE_SIZE <= length view -> k < fuel ->
  data (paginated_loop fuel view (repeat true k ++ false :: up) from (firstn from view))
    = firstn (from + k * PAGE_SIZE) view /\
  error (paginated_loop fuel view (repeat true k ++ false :: up) from (firstn from view))
    = true /\
  rest (paginated_loop fuel view (repeat true k ++ false :: up) from (firstn from view))
    = up.
Proof.
  revert fuel from. induction k as [|k IH]; intros fuel from Hle Hk;
    (destruct fuel as [|f]; [lia|]); cbn [paginated_loop].
  - cbn [data error queries rest repeat app next_outcome negb]. rewrite Nat.add_0_r. repeat split.
  - cbn [repeat app next_outcome negb]. cbv iota.
    rewrite range_page, page_length.
    rewrite Nat.min_l by (unfold PAGE_SIZE in *; lia).
    simpl (PAGE_SIZE =? 0). cbv iota.
    rewrite Nat.ltb_irrefl. rewrite firstn_page.
    destruct (IH f (from + PAGE_SIZE)) as (Hd & He & Hr);
      [unfold PAGE_SIZE in *; lia | lia |].
    cbn [data error queries rest]. rewrite Hd, He, Hr.
    replace (from + PAGE_SIZE + k * PAGE_SIZE) with (from + S k * PAGE_SIZE) by (unfold PAGE_SIZE; lia).
    repeat split.
Qed.

End Pages.

End ProxyFacts.

Module ProxyProps.
Import Cache Proxy ProxyFacts.




(** Extra: when the page query number [k] (counting from 0) fails after
    [k] full pages, [paginatedSelect] answers the error together with the
    [k * 1000] rows collected so far. *)
Theorem paginatedSelect_error_keeps_pages {R} (view : list R) k up :
  k * PAGE_SIZE <= length view ->
  data (paginatedSelect view (repeat true k ++ false :: up)) = firstn (k * PAGE_SIZE) view /\
  error (paginatedSelect view (repeat true k ++ false :: up)) = true.
Proof.
  intros Hk. unfold paginatedSelect.
  destruct (paginated_loop_error view (S (length view / PAGE_SIZE)) 0 k up)
    as (Hd & He & _).
  - exact Hk.
  - assert (k <= length view / PAGE_SIZE).
    { apply Nat.div_le_lower_bound; [unfold PAGE_SIZE; lia|]. lia. }
    lia.
  - split; [exact Hd | exact He].
Qed.


Lemma paginatedSelect_error_keeps_pages_witness :
  data (paginatedSelect (seq 0 2500) (repeat true 2 ++ [false]))
    = firstn 2000 (seq 0 2500).
Proof.
  exact (proj1 (paginatedSelect_error_keeps_pages (seq 0 2500) 2 []
                  ltac:(rewrite length_seq; unfold PAGE_SIZE; lia))).

Defined.

Lemma in_filter_app {R} (col : R -> string) a b r :
  in_filter col (a ++ b) r = in_filter col a r || in_filter col b r.
Proof. unfold in_filter, Route.mem. apply existsb_app. Qed.








Lemma filter_filter' {T} (f g : T -> bool) l :
  filter f (filter g l) = filter (fun x => g x && f x) l.
Proof.
  induction l as [|x l IH]; simpl; [reflexivity|].
  destruct (g x); simpl; [destruct (f x); simpl; rewrite IH|exact IH]; reflexivity.
Qed.

Lemma negb_in_filter_app {R} (col : R -> string) a b r :
  negb (in_filter col a r) && negb (in_filter col b r) = negb (in_filter col (a ++ b) r).
Proof. rewrite in_filter_app. destruct (in_filter col a r); reflexivity. Qed.

Lemma filter_no_values {R} (col : R -> string) table :
  filter (fun r => negb (in_filter col [] r)) table = table.
Proof.
  transitivity (filter (fun _ => true) table); [|apply filter_true].
  apply filter_ext. intros r. reflexivity.
Qed.

Lemma delete_in_loop_nil {R} (col : R -> string) bs table :
  delete_in_loop col bs table []
  = (true, filter (fun r => negb (in_filter col (concat bs) r)) table).
Proof.
  revert table. induction bs as [|b bs IH]; intros table;
    cbn [delete_in_loop concat next_outcome repeat app firstn].
  - rewrite filter_no_values. reflexivity.
  - rewrite IH, filter_filter'. f_equal. apply filter_ext. intros r.
    apply negb_in_filter_app.
Qed.

Lemma delete_in_loop_fail {R} (col : R -> string) bs k table up :
  k < length bs ->
  delete_in_loop col bs table (repeat true k ++ false :: up)
  = (false, filter (fun r => negb (in_filter col (concat (firstn k bs)) r)) table).
Proof.
  revert bs table. induction k as [|k IH]; intros bs table Hk;
    (destruct bs as [|b bs]; [simpl in Hk; lia|]);
    cbn [delete_in_loop concat next_outcome repeat app firstn].
  - rewrite filter_no_values. reflexivity.
  - rewrite IH by (simpl in Hk; lia). rewrite filter_filter'. f_equal.
    apply filter_ext. intros r. apply negb_in_filter_app.
Qed.

(** Extra: when its deletes succeed, [delete_in] removes exactly the rows
    whose column value is one of [values] and reports [values.length] as
    the number deleted, however many rows matched. When the delete of
    batch number [k] (counting from 0) fails, it answers 400 and the rows
    matched by the [k] batches of 50 values before it stay deleted. *)
Theorem delete_in_outcome {R} (col : R -> string) table values :
  delete_in col table values []
    = (Deleted (length values), filter (fun r => negb (in_filter col values r)) table) /\
  forall k up, k < length (Batch.groups 50 values) ->
    delete_in col table values (repeat true k ++ false :: up)
    = (DeleteFailed,
       filter (fun r => negb (in_filter col (concat (firstn k (Batch.groups 50 values))) r))
         table).
Proof.
  split.
  - unfold delete_in. rewrite delete_in_loop_nil.
    rewrite BatchFacts.groups_concat by lia. reflexivity.
  - intros k up Hk. unfold delete_in. rewrite delete_in_loop_fail by exact Hk.
    reflexivity.
Qed.

End ProxyProps.

(* ----------------------------------------------------------------- *)
(** ** Field keys *)

Module FieldKeyProps.
Import Mapper FieldKey.

(** Only [a-z], [0-9] and [_]. *)
Fixpoint key_chars (s : string) : bool :=
  match s with
  | EmptyString => true
  | String ch s' => (is_lower_alnum ch || Ascii.eqb ch underscore) && key_chars s'
  end.

(** No two underscores in a row. *)
Fixpoint no_double (s : string) : bool :=
  match s with
  | String a ((String b _) as s') =>
      negb (Ascii.eqb a underscore && Ascii.eqb b underscore) && no_double s'
  | _ => true
  end.

Definition starts_us (s : string) : bool :=
  match s with
  | String ch _ => Ascii.eqb ch underscore
  | EmptyString => false
  end.

Fixpoint ends_us (s : string) : bool :=
  match s with
  | EmptyString => false
  | String ch EmptyString => Ascii.eqb ch underscore
  | String _ s' => ends_us s'
  end.

Definition well_formed_key (k : string) : bool :=
  key_chars k && no_double k && negb (starts_us k) && negb (ends_us k).

Fixpoint has_alnum (s : string) : bool :=
  match s with
  | EmptyString => false
  | String ch s' => is_lower_alnum ch || has_alnum s'
  end.

Lemma alnum_not_us ch : is_lower_alnum ch = true -> Ascii.eqb ch underscore = false.
Proof.
  intros H. destruct (Ascii.eqb_spec ch underscore) as [->|]; [|reflexivity].
  vm_compute in H. discriminate.
Qed.

Lemma replace_runs_chars b s : key_chars (replace_runs b s) = true.
Proof.
  revert b. induction s as [|ch s IH]; intros b; simpl; [reflexivity|].
  destruct (is_lower_alnum ch) eqn:E; simpl.
  - rewrite E, IH. reflexivity.
  - destruct b; simpl; [apply IH | rewrite IH; reflexivity].
Qed.

Lemma replace_runs_start s : starts_us (replace_runs true s) = false.
Proof.
  induction s as [|ch s IH]; simpl; [reflexivity|].
  destruct (is_lower_alnum ch) eqn:E; simpl; [apply alnum_not_us; exact E | exact IH].
Qed.

Lemma no_double_cons ch s :
  no_double (String ch s) = negb (Ascii.eqb ch underscore && starts_us s) && no_double s.
Proof. destruct s; simpl; [rewrite andb_false_r; reflexivity | reflexivity]. Qed.

Lemma replace_runs_no_double b s : no_double (replace_runs b s) = true.
Proof.
  revert b. induction s as [|ch s IH]; intros b; simpl; [reflexivity|].
  destruct (is_lower_alnum ch) eqn:E.
  - rewrite no_double_cons, alnum_not_us by exact E. apply IH.
  - destruct b; [apply IH|].
    rewrite no_double_cons, replace_runs_start, andb_false_r. apply IH.
Qed.

Lemma drop_final_chars s : key_chars s = true -> key_chars (drop_final_underscore s) = true.
Proof.
  induction s as [|ch s IH]; [reflexivity|].
  destruct s as [|c2 s].
  - intros H. simpl. destruct (Ascii.eqb ch underscore); [reflexivity | exact H].
  - intros H. simpl in H. apply andb_prop in H as [H1 H2].
    change (key_chars (String ch (drop_final_underscore (String c2 s))) = true).
    simpl. rewrite H1. simpl. apply IH, H2.
Qed.

Lemma drop_final_no_double s : no_double s = true -> no_double (drop_final_underscore s) = true.
Proof.
  induction s as [|ch s IH]; [reflexivity|].
  destruct s as [|c2 s].
  - simpl. destruct (Ascii.eqb ch underscore); reflexivity.
  - intros H. rewrite no_double_cons in H. apply andb_prop in H as [H1 H2].
    change (no_double (String ch (drop_final_underscore (String c2 s))) = true).
    rewrite no_double_cons, (IH H2), andb_true_r.
    destruct s as [|c3 s]; simpl in *.
    + destruct (Ascii.eqb c2 underscore) eqn:E2; simpl; [rewrite andb_false_r; reflexivity|].
      rewrite E2, andb_false_r. reflexivity.
    + exact H1.
Qed.

Lemma drop_final_start s : starts_us s = false -> starts_us (drop_final_underscore s) = false.
Proof.
  destruct s as [|ch [|c2 s]]; simpl; [reflexivity| |intros H; exact H].
  intros H. rewrite H. exact H.
Qed.

Lemma ends_cons ch t :
  ends_us (String ch t) = match t with EmptyString => Ascii.eqb ch underscore | _ => ends_us t end.
Proof. destruct t; reflexivity. Qed.

Lemma drop_final_end s : no_double s = true -> ends_us (drop_final_underscore s) = false.
Proof.
  induction s as [|ch s IH]; [reflexivity|].
  destruct s as [|c2 s].
  - intros _. simpl. destruct (Ascii.eqb ch underscore) eqn:E; simpl; [reflexivity | exact E].
  - intros H. rewrite no_double_cons in H. apply andb_prop in H as [H1 H2].
    change (ends_us (String ch (drop_final_underscore (String c2 s))) = false).
    rewrite ends_cons. specialize (IH H2).
    destruct (drop_final_underscore (String c2 s)) as [|c s'] eqn:E; [|exact IH].
    destruct s as [|c3 s]; [|simpl in E; discriminate].
    simpl in E. destruct (Ascii.eqb c2 underscore) eqn:E2; [|discriminate].
    simpl in H1. rewrite E2, andb_true_r in H1. apply negb_true_iff, H1.
Qed.

Lemma well_formed_key_toFieldKey name : well_formed_key (toFieldKey name) = true.
Proof.
  unfold toFieldKey, strip_edges, well_formed_key.
  pose proof (replace_runs_chars false (toLowerCase name)) as Hc.
  pose proof (replace_runs_no_double false (toLowerCase name)) as Hd.
  destruct (replace_runs false (toLowerCase name)) as [|ch s] eqn:E; [reflexivity|].
  destruct (Ascii.eqb ch underscore) eqn:Eu.
  - simpl in Hc. apply andb_prop in Hc as [_ Hc].
    rewrite no_double_cons in Hd. apply andb_prop in Hd as [Hs Hd].
    rewrite Eu in Hs. simpl in Hs. apply negb_true_iff in Hs.
    rewrite drop_final_chars, drop_final_no_double, drop_final_start, drop_final_end; auto.
  - rewrite drop_final_chars, drop_final_no_double, drop_final_start, drop_final_end; auto.
Qed.

(** Extra: [toFieldKey] always yields a snake_case key: only [a-z], [0-9]
    and [_], never two underscores in a row, and no underscore at either
    end. *)
Theorem toFieldKey_well_formed name : well_formed_key (toFieldKey name) = true.
Proof. exact (well_formed_key_toFieldKey name). Qed.

Lemma key_char_lower ch :
  (is_lower_alnum ch || Ascii.eqb ch underscore) = true -> lower_ascii ch = ch.
Proof.
  destruct (Ascii.eqb_spec ch underscore) as [->|_]; [reflexivity|].
  rewrite orb_false_r. unfold is_lower_alnum, lower_ascii.
  intros H. apply orb_true_iff in H.
  destruct H as [H|H]; apply andb_true_iff in H as [H1 H2];
    apply Nat.leb_le in H1; apply Nat.leb_le in H2;
    destruct (Nat.leb_spec 65 (nat_of_ascii ch)), (Nat.leb_spec (nat_of_ascii ch) 90);
    simpl; try lia; reflexivity.
Qed.

Lemma toLowerCase_key s : key_chars s = true -> toLowerCase s = s.
Proof.
  induction s as [|ch s IH]; simpl; [reflexivity|].
  intros H. apply andb_prop in H as [H1 H2]. rewrite key_char_lower, IH; auto.
Qed.

Lemma replace_runs_key b s :
  key_chars s = true -> no_double s = true -> (b = true -> starts_us s = false) ->
  replace_runs b s = s.
Proof.
  revert b. induction s as [|ch s IH]; intros b Hc Hd Hs; [reflexivity|].
  simpl in Hc. apply andb_prop in Hc as [Hc1 Hc2].
  rewrite no_double_cons in Hd. apply andb_prop in Hd as [Hd1 Hd2].
  simpl. destruct (is_lower_alnum ch) eqn:E.
  - rewrite IH; auto. discriminate.
  - simpl in Hc1. destruct b.
    + specialize (Hs eq_refl). simpl in Hs. congruence.
    + apply Ascii.eqb_eq in Hc1. subst ch. rewrite IH; auto.
      intros _. simpl in Hd1. apply negb_true_iff, Hd1.
Qed.

Lemma drop_final_id s : ends_us s = false -> drop_final_underscore s = s.
Proof.
  induction s as [|ch s IH]; [reflexivity|].
  destruct s as [|c2 s].
  - simpl. intros H. rewrite H. reflexivity.
  - intros H. change (String ch (drop_final_underscore (String c2 s)) = String ch (String c2 s)).
    rewrite IH; [reflexivity | exact H].
Qed.

Lemma strip_edges_id s : starts_us s = false -> ends_us s = false -> strip_edges s = s.
Proof.
  destruct s as [|ch s']; [reflexivity|]. intros Hs He. unfold strip_edges.
  simpl in Hs. rewrite Hs. apply drop_final_id. exact He.
Qed.

Lemma well_formed_toFieldKey k : well_formed_key k = true -> toFieldKey k = k.
Proof.
  unfold well_formed_key. intros H.
  apply andb_prop in H as [H He]. apply andb_prop in H as [H Hs].
  apply andb_prop in H as [Hc Hd]. apply negb_true_iff in Hs, He.
  unfold toFieldKey. rewrite toLowerCase_key, replace_runs_key by (auto; discriminate).
  apply strip_edges_id; assumption.
Qed.

(** Extra: [toFieldKey] is idempotent: a field key it produced is its own
    field key. *)
Theorem toFieldKey_idempotent name : toFieldKey (toFieldKey name) = toFieldKey name.
Proof. apply well_formed_toFieldKey, well_formed_key_toFieldKey. Qed.

Lemma replace_runs_alnum b s : has_alnum (replace_runs b s) = has_alnum s.
Proof.
  revert b. induction s as [|ch s IH]; intros b; simpl; [reflexivity|].
  destruct (is_lower_alnum ch) eqn:E; simpl; [rewrite E; reflexivity|].
  destruct b; simpl; rewrite IH; reflexivity.
Qed.

Lemma drop_final_alnum s : has_alnum (drop_final_underscore s) = has_alnum s.
Proof.
  induction s as [|ch s IH]; [reflexivity|].
  destruct s as [|c2 s].
  - simpl. destruct (Ascii.eqb_spec ch underscore) as [->|]; reflexivity.
  - change (is_lower_alnum ch || has_alnum (drop_final_underscore (String c2 s))
            = is_lower_alnum ch || has_alnum (String c2 s)).
    rewrite IH. reflexivity.
Qed.

Lemma strip_edges_alnum s : has_alnum (strip_edges s) = has_alnum s.
Proof.
  destruct s as [|ch s]; [reflexivity|]. unfold strip_edges.
  destruct (Ascii.eqb_spec ch underscore) as [->|]; rewrite drop_final_alnum;
    [|reflexivity]. reflexivity.
Qed.

(** Extra: [toFieldKey] gives the empty key exactly for the names without
    any ASCII letter or digit (e.g. "???" or "   "); every other name gets
    a non-empty key. *)
Theorem toFieldKey_empty name :
  toFieldKey name = EmptyString <-> has_alnum (toLowerCase name) = false.
Proof.
  assert (Ha : has_alnum (toFieldKey name) = has_alnum (toLowerCase name)).
  { unfold toFieldKey. rewrite strip_edges_alnum, replace_runs_alnum. reflexivity. }
  split.
  - intros H. rewrite <- Ha, H. reflexivity.
  - intros H. rewrite H in Ha. pose proof (well_formed_key_toFieldKey name) as Hw.
    destruct (toFieldKey name) as [|ch s]; [reflexivity|].
    unfold well_formed_key in Hw. simpl in Hw, Ha.
    apply orb_false_iff in Ha as [Ha _]. rewrite Ha in Hw. simpl in Hw.
    destruct (Ascii.eqb ch underscore); simpl in Hw; try discriminate.
    rewrite !andb_false_r in Hw. discriminate.
Qed.

End FieldKeyProps.

(* ----------------------------------------------------------------- *)
(** ** New columns *)

Module AddColumnProps.
Import FieldKey FieldKeyProps.

Lemma fold_max_ge l acc : (acc <= fold_left Z.max l acc)%Z.
Proof.
  revert acc. induction l as [|x l IH]; intros acc; simpl; [lia|].
  specialize (IH (Z.max acc x)). lia.
Qed.

Lemma fold_max_in l acc p : In p l -> (p <= fold_left Z.max l acc)%Z.
Proof.
  revert acc. induction l as [|x l IH]; intros acc Hp; [destruct Hp|].
  destruct Hp as [->|Hp]; simpl.
  - pose proof (fold_max_ge l (Z.max acc p)). lia.
  - apply IH, Hp.
Qed.

(** Extra: with an active workspace, [addColumn] / [addAiColumn] insert the
    new column after all existing ones: its position is greater than every
    existing position, and 0 in a workspace without columns; its field key
    is the well-formed key [toFieldKey name]; it is an AI column exactly
    when it has a prompt. *)
Theorem addColumn_insert_spec wid positions name ai :
  wid <> EmptyString ->
  exists ins, addColumn_insert (Some wid) positions name ai = Some ins /\
  (forall p, In p positions -> (p < position ins)%Z) /\
  (positions = [] -> position ins = 0%Z) /\
  field_key ins = toFieldKey name /\ well_formed_key (field_key ins) = true /\
  (is_ai_column ins = true <-> ai <> None).
Proof.
  intros Hw. unfold addColumn_insert.
  destruct (String.eqb_spec wid EmptyString) as [E|_]; [contradiction|].
  eexists. split; [reflexivity|]. cbn [position field_key is_ai_column].
  split; [|split; [|split; [|split]]].
  - intros p Hp. unfold maxPos. pose proof (fold_max_in positions (-1)%Z p Hp). lia.
  - intros ->. reflexivity.
  - reflexivity.
  - apply well_formed_key_toFieldKey.
  - destruct ai; split; intros H; try discriminate; try reflexivity; congruence.
Qed.

End AddColumnProps.

(* ----------------------------------------------------------------- *)
(** ** Active workspace selection *)

Module WorkspaceSelProps.
Import WorkspaceSel.

Lemma table_type_eqb_eq a b : table_type_eqb a b = true <-> a = b.
Proof. destruct a, b; simpl; split; congruence. Qed.

Lemma is_active_id w : is_active (Some (id w)) w = true.
Proof. apply String.eqb_refl. Qed.

Lemma NoDup_map_same {A B} (f : A -> B) l x y :
  NoDup (map f l) -> In x l -> In y l -> f x = f y -> x = y.
Proof.
  induction l as [|z l IH]; intros Hnd Hx Hy Hf; [destruct Hx|].
  simpl in Hnd. inversion Hnd as [|? ? Hnin Hnd']; subst.
  destruct Hx as [<-|Hx], Hy as [<-|Hy]; auto.
  - exfalso. apply Hnin. rewrite Hf. apply in_map, Hy.
  - exfalso. apply Hnin. rewrite <- Hf. apply in_map, Hx.
Qed.

Lemma autoSelect_eq workspaces activeTab activeWorkspaceId :
  autoSelect workspaces activeTab activeWorkspaceId
  = match filter (fun w => table_type_eqb (table_type w) activeTab) workspaces with
    | [] => None
    | w0 :: ws =>
        match find (is_active activeWorkspaceId) (w0 :: ws) with
        | None => Some (id w0)
        | Some _ => activeWorkspaceId
        end
    end.
Proof.
  unfold autoSelect.
  destruct (filter (fun w => table_type_eqb (table_type w) activeTab) workspaces);
    reflexivity.
Qed.

Lemma autoSelect_facts workspaces activeTab activeWorkspaceId :
  let a' := autoSelect workspaces activeTab activeWorkspaceId in
  autoSelect workspaces activeTab a' = a' /\
  ((forall w, In w workspaces -> table_type w <> activeTab) -> a' = None) /\
  ((exists w, In w workspaces /\ table_type w = activeTab) ->
     exists w, In w workspaces /\ table_type w = activeTab /\ a' = Some (id w)) /\
  (forall w, In w workspaces -> table_type w = activeTab ->
     activeWorkspaceId = Some (id w) -> a' = activeWorkspaceId).
Proof.
  cbv zeta. rewrite !autoSelect_eq.
  set (T := filter (fun w => table_type_eqb (table_type w) activeTab) workspaces).
  assert (HT : forall w, In w T <-> In w workspaces /\ table_type w = activeTab).
  { intros w. unfold T. rewrite filter_In, table_type_eqb_eq. reflexivity. }
  destruct T as [|w0 ws] eqn:ET.
  - split; [reflexivity|]. split; [reflexivity|]. split.
    + intros [w Hw]. apply HT in Hw. destruct Hw.
    + intros w Hw Ht. exfalso. apply (proj2 (HT w)). auto.
  - destruct (find (is_active activeWorkspaceId) (w0 :: ws)) as [w|] eqn:Ef.
    + pose proof Ef as Ef'. apply find_some in Ef as [Hin Hact].
      assert (Ha : activeWorkspaceId = Some (id w)).
      { destruct activeWorkspaceId as [a|]; [|discriminate].
        apply String.eqb_eq in Hact. rewrite Hact. reflexivity. }
      rewrite Ef'.
      split; [reflexivity|]. split.
      * intros Hno. exfalso. apply HT in Hin as [Hin Ht]. exact (Hno w Hin Ht).
      * split; [intros _; exists w; apply HT in Hin as [? ?]; auto|]. auto.
    + cbn [find]. rewrite is_active_id.
      split; [reflexivity|]. split.
      * intros Hno. exfalso. destruct (proj1 (HT w0) (or_introl eq_refl)) as [Hin Ht].
        exact (Hno w0 Hin Ht).
      * split.
        -- intros _. exists w0. destruct (proj1 (HT w0) (or_introl eq_refl)) as [? ?]. auto.
        -- intros w Hin Ht Ha. exfalso.
           assert (Hw : In w (w0 :: ws)) by (apply HT; auto).
           pose proof (find_none _ _ Ef w Hw) as Hf. rewrite Ha, is_active_id in Hf.
           discriminate.
Qed.

(** Extra: after the auto-select effect, the selected workspace id is
    [null] exactly when the active tab has no workspace, and otherwise the
    id of one of the tab's workspaces; a selection that already belongs to
    the tab is kept; and running the effect again changes nothing, so the
    effect settles after one run. *)
Theorem autoSelect_settles workspaces activeTab activeWorkspaceId :
  let a' := autoSelect workspaces activeTab activeWorkspaceId in
  autoSelect workspaces activeTab a' = a' /\
  ((forall w, In w workspaces -> table_type w <> activeTab) -> a' = None) /\
  ((exists w, In w workspaces /\ table_type w = activeTab) ->
     exists w, In w workspaces /\ table_type w = activeTab /\ a' = Some (id w)) /\
  (forall w, In w workspaces -> table_type w = activeTab ->
     activeWorkspaceId = Some (id w) -> a' = activeWorkspaceId).
Proof. exact (autoSelect_facts workspaces activeTab activeWorkspaceId). Qed.

(** Extra: when workspace ids are unique, after the auto-select effect the
    [activeWorkspace] the provider exposes, when it is not [null], is a
    workspace of the active tab. *)
Theorem autoSelect_active_in_tab workspaces activeTab activeWorkspaceId w :
  NoDup (map id workspaces) ->
  activeWorkspace workspaces (autoSelect workspaces activeTab activeWorkspaceId) = Some w ->
  table_type w = activeTab.
Proof.
  intros Hnd Haw. unfold activeWorkspace in Haw.
  destruct (autoSelect workspaces activeTab activeWorkspaceId) as [a|] eqn:Ea;
    [|apply find_some in Haw as [_ Hf]; discriminate Hf].
  apply find_some in Haw as [Hin Hact]. simpl in Hact. apply String.eqb_eq in Hact.
  destruct (autoSelect_facts workspaces activeTab activeWorkspaceId)
    as (_ & Hnone & Hsome & _).
  fold (autoSelect workspaces activeTab activeWorkspaceId) in Hnone, Hsome.
  rewrite Ea in Hnone, Hsome.
  destruct (existsb (fun w => table_type_eqb (table_type w) activeTab) workspaces) eqn:Eb.
  - apply existsb_exists in Eb as [w1 [Hw1 Ht1]]. apply table_type_eqb_eq in Ht1.
    destruct (Hsome (ex_intro _ w1 (conj Hw1 Ht1))) as [w2 [Hw2 [Ht2 Hid]]].
    injection Hid as Hid. rewrite (NoDup_map_same _ _ _ _ Hnd Hin Hw2); [exact Ht2|].
    congruence.
  - exfalso. assert (Some a = None); [|discriminate].
    apply Hnone. intros w' Hw' Ht'.
    pose proof (RouteFacts.existsb_false_iff _ _ Eb w' Hw') as Hf.
    cbv beta in Hf. rewrite Ht', (proj2 (table_type_eqb_eq activeTab activeTab) eq_refl) in Hf.
    discriminate.
Qed.

End WorkspaceSelProps.

(* ----------------------------------------------------------------- *)
(** ** CSV import *)

Module ImportProps.
Import Mapper Import_.

Lemma cell_inserts_for_In r csvRow columnMap ci :
  In ci (cell_inserts_for r csvRow columnMap) <->
  row_id ci = r /\ value ci <> EmptyString /\
  exists h, In (h, column_id ci) columnMap /\ lookup csvRow h = Some (value ci).
Proof.
  unfold cell_inserts_for. rewrite in_flat_map. split.
  - intros [[h c] [Hin Hci]].
    destruct (lookup csvRow h) as [v|] eqn:El; [|destruct Hci].
    destruct (String.eqb_spec v EmptyString) as [_|Hne]; [destruct Hci|].
    destruct Hci as [<-|[]]. simpl. split; [reflexivity|]. split; [exact Hne|].
    exists h. auto.
  - intros [Hr [Hne [h [Hin Hl]]]]. exists (h, column_id ci). split; [exact Hin|].
    rewrite Hl. destruct (String.eqb_spec (value ci) EmptyString) as [E|_];
      [contradiction|].
    left. destruct ci; simpl in *; subst; reflexivity.
Qed.



Lemma cell_inserts_for_NoDup r csvRow columnMap :
  NoDup (map snd columnMap) ->
  NoDup (map column_id (cell_inserts_for r csvRow columnMap)).
Proof.
  induction columnMap as [|[h c] cm IH]; intros Hnd; simpl; [constructor|].
  inversion Hnd as [|? ? Hc Hnd']; subst.
  destruct (lookup csvRow h) as [v|]; [|apply IH, Hnd'].
  destruct (String.eqb v EmptyString); [apply IH, Hnd'|].
  simpl. constructor; [|apply IH, Hnd'].
  intros Hin. apply in_map_iff in Hin as [ci [Hci Hin]].
  apply cell_inserts_for_In in Hin as (_ & _ & h' & Hh' & _).
  apply Hc. rewrite <- Hci. apply in_map_iff. exists (h', column_id ci). auto.
Qed.

Lemma NoDup_app' {T} (l1 l2 : list T) :
  NoDup l1 -> NoDup l2 -> (forall x, In x l1 -> ~ In x l2) -> NoDup (l1 ++ l2).
Proof.
  induction l1 as [|x l1 IH]; intros H1 H2 Hd; simpl; [exact H2|].
  inversion H1 as [|? ? Hx H1']; subst. constructor.
  - rewrite in_app_iff. intros [H|H]; [contradiction|]. exact (Hd x (or_introl eq_refl) H).
  - apply IH; auto. intros y Hy. apply Hd. right. exact Hy.
Qed.

Lemma NoDup_map_pair {A B} (r : A) (l : list B) :
  NoDup l -> NoDup (map (fun c => (r, c)) l).
Proof.
  induction l as [|c l IH]; intros H; simpl; [constructor|].
  inversion H as [|? ? Hc H']; subst. constructor; [|apply IH, H'].
  intros Hin. apply in_map_iff in Hin as [c' [Hc' Hin]]. injection Hc' as ->.
  contradiction.
Qed.

Definition cell_key (ci : CellInsert) : string * string := (row_id ci, column_id ci).

(** Extra: when the new rows have distinct ids and the column map sends
    distinct headers to distinct columns, the cell inserts of a batch
    never hold two values for the same row and column. *)
Theorem cell_inserts_unique newRows batch columnMap cis :
  NoDup newRows -> NoDup (map snd columnMap) ->
  build_cell_inserts newRows batch columnMap = Some cis ->
  NoDup (map cell_key cis).
Proof.
  revert batch cis. induction newRows as [|r rs IH]; intros batch cis Hr Hc Hb.
  - simpl in Hb. injection Hb as <-. constructor.
  - inversion Hr as [|? ? Hnin Hr']; subst.
    destruct batch as [|row bs].
    + simpl in Hb. destruct columnMap as [|e cm].
      * apply (IH [] cis Hr' Hc Hb).
      * discriminate.
    + simpl in Hb. destruct (build_cell_inserts rs bs columnMap) as [rest|] eqn:Erest;
        [|discriminate].
      simpl in Hb. injection Hb as <-. rewrite map_app. apply NoDup_app'.
      * pose proof (cell_inserts_for_NoDup r row columnMap Hc) as H.
        assert (Hk : map cell_key (cell_inserts_for r row columnMap)
                     = map (fun c => (r, c)) (map column_id (cell_inserts_for r row columnMap))).
        { rewrite map_map. apply map_ext_in. intros ci Hci.
          apply cell_inserts_for_In in Hci as [Hri _]. unfold cell_key. rewrite Hri.
          reflexivity. }
        rewrite Hk. apply NoDup_map_pair, H.
      * apply (IH bs rest Hr' Hc Erest).
      * intros [x c] Hx Hy. apply in_map_iff in Hx as [ci [Hci Hx]].
        apply cell_inserts_for_In in Hx as [Hri _]. unfold cell_key in Hci.
        rewrite Hri in Hci. injection Hci as <- _.
        apply in_map_iff in Hy as [ci' [Hci' Hy]]. unfold cell_key in Hci'.
        injection Hci' as Hri' _. apply Hnin. rewrite <- Hri'.
        clear -Erest Hy. revert bs rest Erest Hy.
        induction rs as [|r' rs IH]; intros bs rest E Hy.
        -- simpl in E. injection E as <-. destruct Hy.
        -- destruct bs as [|row' bs].
           ++ simpl in E. destruct columnMap; [|discriminate].
              right. exact (IH [] rest E Hy).
           ++ simpl in E. destruct (build_cell_inserts rs bs columnMap) as [rest'|] eqn:E';
                [|discriminate].
              simpl in E. injection E as <-. apply in_app_iff in Hy as [Hy|Hy].
              ** apply cell_inserts_for_In in Hy as [-> _]. left. reflexivity.
              ** right. exact (IH bs rest' E' Hy).
Qed.




End ImportProps.

(* ----------------------------------------------------------------- *)
(** ** Instances of the properties above *)

Module ExtraWitnesses.
Local Open Scope string_scope.

Lemma delete_in_outcome_witness :
  Proxy.delete_in (fun s : string => s) ["a"; "b"; "a"] ["a"; "a"; "z"] []
    = (Proxy.Deleted 3, ["b"]) /\
  Proxy.delete_in (fun s : string => s) ["a"; "b"] ["a"] [false]
    = (Proxy.DeleteFailed, ["a"; "b"]).
Proof.
  destruct (ProxyProps.delete_in_outcome (fun s : string => s) ["a"; "b"; "a"] ["a"; "a"; "z"])
    as [H1 _].
  destruct (ProxyProps.delete_in_outcome (fun s : string => s) ["a"; "b"] ["a"]) as [_ H2].
  split.
  - rewrite H1. reflexivity.
  - change [false] with ((repeat true 0 ++ false :: [])%list).
    rewrite (H2 0 [] ltac:(vm_compute; lia)). reflexivity.
Defined.

Lemma addColumn_insert_spec_witness :
  exists ins, FieldKey.addColumn_insert (Some "w1") [0; 3; 1]%Z "Deal Size (USD)" None = Some ins /\
    (3 < FieldKey.position ins)%Z /\ FieldKey.field_key ins = "deal_size_usd" /\
    FieldKey.is_ai_column ins = false.
Proof.
  destruct (AddColumnProps.addColumn_insert_spec "w1" [0; 3; 1]%Z "Deal Size (USD)" None
             ltac:(discriminate))
    as (ins & E & Hlt & _ & Hk & _ & Hai).
  exists ins. split; [exact E|]. split; [apply Hlt; simpl; auto|]. split.
  - rewrite Hk. reflexivity.
  - destruct (FieldKey.is_ai_column ins); [|reflexivity].
    exfalso. apply (proj1 Hai eq_refl). reflexivity.
Defined.

Definition ws : list WorkspaceSel.Workspace :=
  [WorkspaceSel.Build_Workspace "p1" Types.people;
   WorkspaceSel.Build_Workspace "c1" Types.companies].

Lemma autoSelect_settles_witness :
  WorkspaceSel.autoSelect ws Types.companies
    (WorkspaceSel.autoSelect ws Types.companies (Some "p1"))
  = WorkspaceSel.autoSelect ws Types.companies (Some "p1") /\
  WorkspaceSel.autoSelect ws Types.companies (Some "p1") = Some "c1".
Proof.
  destruct (WorkspaceSelProps.autoSelect_settles ws Types.companies (Some "p1"))
    as (H1 & _ & H3 & _).
  split; [exact H1|].
  destruct H3 as (w & Hw & Ht & ->); [exists (WorkspaceSel.Build_Workspace "c1" Types.companies);
                                       split; [simpl; auto | reflexivity]|].
  destruct Hw as [<-|[<-|[]]]; [discriminate Ht | reflexivity].
Defined.

Lemma autoSelect_active_in_tab_witness :
  WorkspaceSel.table_type (WorkspaceSel.Build_Workspace "c1" Types.companies) = Types.companies.
Proof.
  apply (WorkspaceSelProps.autoSelect_active_in_tab ws Types.companies (Some "p1")).
  - apply NoDup_cons; [simpl; intros [H|[]]; discriminate H|].
    apply NoDup_cons; [intros []|apply NoDup_nil].
  - reflexivity.
Defined.

Definition newRows : list string := ["r1"; "r2"].
Definition batch : list Import_.CsvRow :=
  [[("name", "Ann"); ("email", EmptyString)]; [("name", "Bob")]].
Definition columnMap : list (string * string) :=
  [("name", "c_name"); ("email", "c_email")].


Lemma cell_inserts_unique_witness :
  exists cis, Import_.build_cell_inserts newRows batch columnMap = Some cis /\
    NoDup (map ImportProps.cell_key cis).
Proof.
  destruct (Import_.build_cell_inserts newRows batch columnMap) as [cis|] eqn:E;
    [|vm_compute in E; discriminate E].
  exists cis. split; [reflexivity|].
  apply (ImportProps.cell_inserts_unique newRows batch columnMap cis).
  - apply NoDup_cons; [simpl; intros [H|[]]; discriminate H|].
    apply NoDup_cons; [intros []|apply NoDup_nil].
  - apply NoDup_cons; [simpl; intros [H|[]]; discriminate H|].
    apply NoDup_cons; [intros []|apply NoDup_nil].
  - exact E.
Defined.



End ExtraWitnesses.
